(** * Configuration resolution of dbt resources: core/dbt/source_config.py

    A shallow embedding of [ConfigUpdater] and [SourceConfig] and the
    properties of their merge operations.

    Python values are embedded as a first-order universe ([value]):
    None, booleans, integers, strings, lists, tuples and dictionaries.
    Dictionaries are insertion-ordered association lists, looked up
    with Python's key equality.  Floats, sets and user objects are
    outside the universe.  Functions that mutate a dictionary in place
    return the mutated dictionary together with the exception they
    raised, if any. *)

From Stdlib Require Import List String Ascii ZArith Bool.
Import ListNotations.
Local Open Scope string_scope.
Local Open Scope list_scope.
#[local] Set Warnings "-register-all".

(** ** Python values *)

(** Hashable values, as they occur as dictionary keys. *)
Inductive key : Type :=
| KNone
| KBool (b : bool)
| KInt (n : Z)
| KStr (s : string)
| KTuple (l : list key).

Inductive value : Type :=
| VNone
| VBool (b : bool)
| VInt (n : Z)
| VStr (s : string)
| VList (l : list value)
| VTuple (l : list value)
| VDict (d : list (key * value)).

Definition dict : Type := list (key * value).

(** Exceptions raised by the embedded code.  [CompilationException]
    is the compiler-level error of [dbt.exceptions]; the others are
    Python's built-in exceptions. *)
Inductive exn : Type :=
| CompilationException (msg : string)
| KeyError
| TypeError
| ValueError
| AttributeError.

Inductive res (A : Type) : Type :=
| Ok (a : A)
| Raise (e : exn).
Arguments Ok {A} a.
Arguments Raise {A} e.

Definition bind {A B : Type} (r : res A) (f : A -> res B) : res B :=
  match r with
  | Ok a => f a
  | Raise e => Raise e
  end.

Notation "x <- r ;; k" := (bind r (fun x => k))
  (at level 61, r at next level, right associativity).

(** Python's [==] on keys: [True == 1] and [False == 0]. *)
Definition num_of_bool (b : bool) : Z := if b then 1%Z else 0%Z.

Fixpoint key_eqb (a b : key) {struct a} : bool :=
  match a, b with
  | KNone, KNone => true
  | KBool x, KBool y => Bool.eqb x y
  | KBool x, KInt y => Z.eqb (num_of_bool x) y
  | KInt x, KBool y => Z.eqb x (num_of_bool y)
  | KInt x, KInt y => Z.eqb x y
  | KStr x, KStr y => String.eqb x y
  | KTuple xs, KTuple ys =>
      (fix all2 (xs : list key) (ys : list key) {struct xs} : bool :=
         match xs, ys with
         | [], [] => true
         | x :: xs', y :: ys' => key_eqb x y && all2 xs' ys'
         | _, _ => false
         end) xs ys
  | _, _ => false
  end.

Arguments key_eqb : simpl never.

(** [hash(v)]: lists and dictionaries are unhashable, a tuple is
    hashable when its items are. *)
Fixpoint to_key (v : value) : option key :=
  match v with
  | VNone => Some KNone
  | VBool b => Some (KBool b)
  | VInt n => Some (KInt n)
  | VStr s => Some (KStr s)
  | VTuple l =>
      option_map KTuple
        ((fix all (l : list value) : option (list key) :=
            match l with
            | [] => Some []
            | x :: l' =>
                match to_key x, all l' with
                | Some k, Some ks => Some (k :: ks)
                | _, _ => None
                end
            end) l)
  | VList _ | VDict _ => None
  end.

Fixpoint of_key (k : key) : value :=
  match k with
  | KNone => VNone
  | KBool b => VBool b
  | KInt n => VInt n
  | KStr s => VStr s
  | KTuple l => VTuple (map of_key l)
  end.

(** ** Dictionaries *)

(** [d.get(k)]: [None] when the key is absent. *)
Fixpoint dget (k : key) (d : dict) : option value :=
  match d with
  | [] => None
  | (k', v) :: d' => if key_eqb k k' then Some v else dget k d'
  end.

(** [d[k] = v]: an existing key keeps its position (and its key
    object), a new key is appended. *)
Fixpoint dset (k : key) (v : value) (d : dict) : dict :=
  match d with
  | [] => [(k, v)]
  | (k', v') :: d' =>
      if key_eqb k k' then (k', v) :: d' else (k', v') :: dset k v d'
  end.

(** [d.update(d2)] for a dictionary [d2]. *)
Definition dict_update (d d2 : dict) : dict :=
  fold_left (fun acc kv => dset (fst kv) (snd kv) acc) d2 d.

(** No two entries have equal keys, as in every Python dictionary. *)
Fixpoint dict_wf (d : dict) : bool :=
  match d with
  | [] => true
  | (k, _) :: d' =>
      negb (existsb (fun kv => key_eqb k (fst kv)) d') && dict_wf d'
  end.

(** Python's [==] on values: numbers compare by value ([True == 1]),
    sequences item by item, dictionaries entry by entry whatever the
    insertion order; a list is never equal to a tuple. *)
Fixpoint py_eqb (a b : value) {struct a} : bool :=
  match a, b with
  | VNone, VNone => true
  | VBool x, VBool y => Bool.eqb x y
  | VBool x, VInt y => Z.eqb (num_of_bool x) y
  | VInt x, VBool y => Z.eqb x (num_of_bool y)
  | VInt x, VInt y => Z.eqb x y
  | VStr x, VStr y => String.eqb x y
  | VList xs, VList ys | VTuple xs, VTuple ys =>
      (fix all2 (xs : list value) (ys : list value) {struct xs} : bool :=
         match xs, ys with
         | [], [] => true
         | x :: xs', y :: ys' => py_eqb x y && all2 xs' ys'
         | _, _ => false
         end) xs ys
  | VDict d1, VDict d2 =>
      Nat.eqb (List.length d1) (List.length d2) &&
      (fix all (d : list (key * value)) : bool :=
         match d with
         | [] => true
         | (k, x) :: d' =>
             match dget k d2 with
             | Some y => py_eqb x y && all d'
             | None => false
             end
         end) d1
  | _, _ => false
  end.

(** [x in l] for a list [l]. *)
Definition py_in (x : value) (l : list value) : bool :=
  existsb (fun y => py_eqb y x) l.

(** ** _listify *)

Definition _listify (v : value) : list value :=
  match v with
  | VTuple l => l
  | VList l => l
  | _ => [v]
  end.

(** ** dict.update with an arbitrary argument

    [d.update(v)] merges a dictionary; any other argument is iterated
    as a sequence of key/value pairs.  Items are stored one by one, so
    a failure at a later item leaves the earlier ones stored. *)

Definition chars (s : string) : list value :=
  map (fun c => VStr (String c EmptyString)) (list_ascii_of_string s).

(** The items [v] yields when iterated, [None] when [v] is not
    iterable.  Iterating a dictionary yields its keys. *)
Definition py_iter (v : value) : option (list value) :=
  match v with
  | VList l | VTuple l => Some l
  | VStr s => Some (chars s)
  | VDict d => Some (map (fun kv => of_key (fst kv)) d)
  | VNone | VBool _ | VInt _ => None
  end.

(** One item of a sequence of pairs: it must be iterable, of length
    2, and its first component hashable. *)
Definition pair_of_item (x : value) : res (key * value) :=
  match py_iter x with
  | None => Raise TypeError
  | Some [a; b] =>
      match to_key a with
      | Some k => Ok (k, b)
      | None => Raise TypeError
      end
  | Some _ => Raise ValueError
  end.

Fixpoint update_from_pairs (d : dict) (items : list value)
  : dict * option exn :=
  match items with
  | [] => (d, None)
  | x :: items' =>
      match pair_of_item x with
      | Ok (k, v) => update_from_pairs (dset k v d) items'
      | Raise e => (d, Some e)
      end
  end.

Definition py_dict_update (d : dict) (v : value) : dict * option exn :=
  match v with
  | VDict d2 => (dict_update d d2, None)
  | _ =>
      match py_iter v with
      | None => (d, Some TypeError)
      | Some items => update_from_pairs d items
      end
  end.

(** ** ConfigUpdater

    The three field sets are Python sets.  They are enumerated here in
    the order of the source text; Python leaves the iteration order of
    a set unspecified, and the loops below touch one key per
    iteration, so the order only decides which error is reported when
    several keys are at fault. *)

Definition AppendListFields : list string :=
  ["pre-hook"; "post-hook"; "tags"].

Definition ExtendDictFields : list string :=
  ["vars"; "column_types"; "quoting"; "persist_docs"].

Definition DefaultClobberFields : list string :=
  ["alias"; "schema"; "enabled"; "materialized"; "unique_key";
   "database"; "severity"; "sql_header"; "incremental_strategy";
   "target_database"; "target_schema"; "strategy"; "updated_at";
   "check_cols"; "quote_columns"].

Definition mem (s : string) (l : list string) : bool :=
  existsb (String.eqb s) l.
Arguments mem : simpl never.

(** Set union [a | b]. *)
Definition union (a b : list string) : list string :=
  a ++ filter (fun x => negb (mem x a)) b.

(** [k in fields] for a value used as a key: only a string can be
    equal to a field name. *)
Definition in_fields (k : key) (fields : list string) : bool :=
  match k with
  | KStr s => mem s fields
  | _ => false
  end.

(** The adapter class found by [get_adapter_class_by_name] is not part
    of this module; the updater holds the adapter-specific field set
    it read from that class in [__init__]. *)
Record ConfigUpdater : Type := {
  AdapterSpecificConfigs : list string
}.

Definition ClobberFields (self : ConfigUpdater) : list string :=
  union DefaultClobberFields (AdapterSpecificConfigs self).

Definition ConfigKeys (self : ConfigUpdater) : list string :=
  union (union AppendListFields ExtendDictFields) (ClobberFields self).

Definition quote : string := String "034"%char EmptyString.

(** ['Invalid config field: "{}" must be a dict'.format(key)] *)
Definition invalid_field_msg (k : string) : string :=
  "Invalid config field: " ++ quote ++ k ++ quote ++ " must be a dict".

(** Modelled from the spec: [dbt.exceptions.raise_compiler_error] is
    imported and not part of this module.  It raises a labeled
    compiler-level error that carries the message. *)
Definition raise_compiler_error (msg : string) : exn :=
  CompilationException msg.

(** A statement that mutates [mutable_config]: the dictionary after
    it, and the exception it raised. *)
Definition stmt : Type := dict -> dict * option exn.

Definition seq (s1 s2 : stmt) : stmt :=
  fun mc =>
    match s1 mc with
    | (mc1, None) => s2 mc1
    | (mc1, Some e) => (mc1, Some e)
    end.

(** [for key in keys: body(key)] *)
Fixpoint for_keys (body : string -> stmt) (keys : list string) : stmt :=
  match keys with
  | [] => fun mc => (mc, None)
  | k :: keys' => seq (body k) (for_keys body keys')
  end.

Definition get_default_value (k : key) (d : dict) (dflt : value) : value :=
  match dget k d with
  | Some v => v
  | None => dflt
  end.

(** The dictionary comprehension that selects the expected keys of
    [new_configs].  A non-dictionary is iterated like any iterable:
    a number is not iterable, and an item that is a field name is then
    used as an index into a string or a list, which is a TypeError, as
    is testing an unhashable item for membership in a set. *)
Definition relevant_of (self : ConfigUpdater) (new_configs : value)
  : res dict :=
  match new_configs with
  | VDict d =>
      Ok (fold_left
            (fun acc kv =>
               if in_fields (fst kv) (ConfigKeys self)
               then match dget (fst kv) d with
                    | Some v => dset (fst kv) v acc
                    | None => acc
                    end
               else acc)
            d [])
  | _ =>
      match py_iter new_configs with
      | None => Raise TypeError
      | Some items =>
          if existsb
               (fun x =>
                  match to_key x with
                  | None => true
                  | Some k => in_fields k (ConfigKeys self)
                  end) items
          then Raise TypeError
          else Ok []
      end
  end.

(** Body of [for key in self.AppendListFields]. *)
Definition append_field (relevant_configs : dict) (k : string) : stmt :=
  fun mutable_config =>
    let append_fields :=
      _listify (get_default_value (KStr k) relevant_configs (VList [])) in
    match dget (KStr k) mutable_config with
    | None => (mutable_config, Some KeyError)
    | Some (VList cur) =>
        (dset (KStr k)
           (VList (cur ++ filter (fun f => negb (py_in f cur)) append_fields))
           mutable_config, None)
    | Some _ => (mutable_config, Some AttributeError)
    end.

(** Body of [for key in self.ExtendDictFields].  The builtin errors of
    [update] are caught and replaced by the compiler error. *)
Definition extend_field (relevant_configs : dict) (k : string) : stmt :=
  fun mutable_config =>
    let dict_val :=
      get_default_value (KStr k) relevant_configs (VDict []) in
    match dget (KStr k) mutable_config with
    | None => (mutable_config, Some KeyError)
    | Some (VDict cur) =>
        match py_dict_update cur dict_val with
        | (cur', None) => (dset (KStr k) (VDict cur') mutable_config, None)
        | (cur', Some _) =>
            (dset (KStr k) (VDict cur') mutable_config,
             Some (raise_compiler_error (invalid_field_msg k)))
        end
    | Some _ =>
        (mutable_config, Some (raise_compiler_error (invalid_field_msg k)))
    end.

(** Body of [for key in self.ClobberFields]. *)
Definition clobber_field (relevant_configs : dict) (k : string) : stmt :=
  fun mutable_config =>
    match dget (KStr k) relevant_configs with
    | Some v => (dset (KStr k) v mutable_config, None)
    | None => (mutable_config, None)
    end.

Definition update_config_keys_into (self : ConfigUpdater)
    (mutable_config : dict) (new_configs : value) : dict * res dict :=
  match relevant_of self new_configs with
  | Raise e => (mutable_config, Raise e)
  | Ok relevant_configs =>
      match seq (for_keys (append_field relevant_configs) AppendListFields)
             (seq (for_keys (extend_field relevant_configs) ExtendDictFields)
                  (for_keys (clobber_field relevant_configs)
                            (ClobberFields self)))
             mutable_config with
      | (mc, None) => (mc, Ok relevant_configs)
      | (mc, Some e) => (mc, Raise e)
      end
  end.

(** One iteration of [for key, value in new_config.items()] in
    [update_into].  A key that is not a string is in no field set and
    takes the last branch.  When [update] fails, the dictionary it was
    filling is the one stored under the key, if there is one. *)
Definition update_into_item (kv : key * value) : stmt :=
  fun mutable_config =>
    let k := fst kv in
    let v := snd kv in
    match k with
    | KStr s =>
        if mem s AppendListFields then
          let current_list :=
            _listify (get_default_value k mutable_config (VList [])) in
          (dset k (VList (current_list ++ _listify v)) mutable_config, None)
        else if mem s ExtendDictFields then
          match get_default_value k mutable_config (VDict []) with
          | VDict current_dict =>
              match py_dict_update current_dict v with
              | (d', None) => (dset k (VDict d') mutable_config, None)
              | (d', Some _) =>
                  (match dget k mutable_config with
                   | Some _ => dset k (VDict d') mutable_config
                   | None => mutable_config
                   end,
                   Some (raise_compiler_error (invalid_field_msg s)))
              end
          | _ =>
              (mutable_config,
               Some (raise_compiler_error (invalid_field_msg s)))
          end
        else (dset k v mutable_config, None)
    | _ => (dset k v mutable_config, None)
    end.

Fixpoint update_into_items (items : list (key * value)) : stmt :=
  match items with
  | [] => fun mc => (mc, None)
  | kv :: items' => seq (update_into_item kv) (update_into_items items')
  end.

Definition update_into (self : ConfigUpdater) (mutable_config : dict)
    (new_config : dict) : dict * option exn :=
  update_into_items new_config mutable_config.

(** ** The path walk *)

(** Modelled from the spec: [dbt.node_types.NodeType] is imported and
    not part of this module.  The resource kind is one of a small
    closed set: ordinary model, seed, snapshot, test, and further
    kinds that this module does not tell apart. *)
Inductive NodeType : Type :=
| Model
| Seed
| Snapshot
| Test
| OtherKind (name : string).

(** The credentials of the active project translate the aliases of
    the adapter; the translation is not part of this module. *)
Record Credentials : Type := {
  translate_aliases : dict -> res dict
}.

(** The protocol [HasConfigFields], with the name the resolver
    compares and the credentials the active project carries. *)
Record Project : Type := {
  project_name : string;
  seeds : value;
  snapshots : value;
  models : value;
  credentials : Credentials
}.

Record ModelParts : Type := {
  fqn : list string;
  resource_type : NodeType
}.

(** [config = {}] followed by the two initialisation loops. *)
Definition scaffold : dict :=
  fold_left (fun config k => dset (KStr k) (VDict []) config)
    ExtendDictFields
    (fold_left (fun config k => dset (KStr k) (VList []) config)
       AppendListFields []).

(** [model_configs.get(level, None)]: only a dictionary has [get]. *)
Definition py_get (model_configs : value) (level : string)
  : res (option value) :=
  match model_configs with
  | VDict d => Ok (dget (KStr level) d)
  | _ => Raise AttributeError
  end.

(** The comprehension that keeps the entries of [relevant_configs]
    whose key is neither an AppendList nor an ExtendDict field. *)
Definition clobber_configs_of (relevant_configs : dict) : dict :=
  fold_left
    (fun acc kv =>
       if negb (in_fields (fst kv) AppendListFields) &&
          negb (in_fields (fst kv) ExtendDictFields)
       then dset (fst kv) (snd kv) acc
       else acc)
    relevant_configs [].

(** [for level in fqn], with the loop state [config], [model_configs].
    [model_configs[level]] is the value [get] has just returned. *)
Fixpoint walk_levels (self : ConfigUpdater) (levels : list string)
    (config : dict) (model_configs : value) : res dict :=
  match levels with
  | [] => Ok config
  | level :: rest =>
      level_config <- py_get model_configs level ;;
      match level_config with
      | None | Some VNone => Ok config
      | Some level_config =>
          match update_config_keys_into self config level_config with
          | (_, Raise e) => Raise e
          | (config, Ok relevant_configs) =>
              let clobber_configs := clobber_configs_of relevant_configs in
              let config := dict_update config clobber_configs in
              walk_levels self rest config level_config
          end
      end
  end.

Definition select_configs (model : ModelParts) (project : Project) : value :=
  match resource_type model with
  | Seed => seeds project
  | Snapshot => snapshots project
  | _ => models project
  end.

Definition get_project_config (self : ConfigUpdater) (model : ModelParts)
    (project : Project) : res dict :=
  let config := scaffold in
  let model_configs := select_configs model project in
  match model_configs with
  | VNone => Ok config
  | _ =>
      match update_config_keys_into self config model_configs with
      | (_, Raise e) => Raise e
      | (config, Ok _) => walk_levels self (fqn model) config model_configs
      end
  end.

(** The walk without the second application of the clobber fields
    (the statement [config.update(clobber_configs)] removed). *)
Fixpoint walk_levels_single (self : ConfigUpdater) (levels : list string)
    (config : dict) (model_configs : value) : res dict :=
  match levels with
  | [] => Ok config
  | level :: rest =>
      level_config <- py_get model_configs level ;;
      match level_config with
      | None | Some VNone => Ok config
      | Some level_config =>
          match update_config_keys_into self config level_config with
          | (_, Raise e) => Raise e
          | (config, Ok _) =>
              walk_levels_single self rest config level_config
          end
      end
  end.

Definition get_project_config_single (self : ConfigUpdater)
    (model : ModelParts) (project : Project) : res dict :=
  let config := scaffold in
  let model_configs := select_configs model project in
  match model_configs with
  | VNone => Ok config
  | _ =>
      match update_config_keys_into self config model_configs with
      | (_, Raise e) => Raise e
      | (config, Ok _) =>
          walk_levels_single self (fqn model) config model_configs
      end
  end.

(** ** Merging whole configurations *)

(** Modelled from the spec: [dbt.utils.deep_merge], which is imported
    and not part of this module.  It merges two mappings key-wise;
    when both sides hold a nested mapping at a key, it merges them
    recursively; otherwise the right-hand value wins.  It builds a new
    mapping and leaves its arguments untouched. *)
Fixpoint merge_value (left : option value) (right : value) : value :=
  match right with
  | VDict r =>
      match left with
      | Some (VDict l) =>
          VDict
            ((fix go (r : list (key * value)) (acc : dict) : dict :=
                match r with
                | [] => acc
                | (k, x) :: r' =>
                    go r' (dset k (merge_value (dget k acc) x) acc)
                end) r l)
      | _ => right
      end
  | _ => right
  end.

Definition deep_merge (l r : dict) : dict :=
  fold_left
    (fun acc kv => dset (fst kv) (merge_value (dget (fst kv) acc) (snd kv)) acc)
    r l.

(** One iteration of [for config in configs] in [merge]: the clobber
    fields are popped from a copy of [config], the rest is deep-merged
    into the running result, and the clobber fields are put back on
    top. *)
Definition merge_step (self : ConfigUpdater) (merged_config config : dict)
  : dict :=
  let clobber :=
    filter (fun kv => in_fields (fst kv) (ClobberFields self)) config in
  let config :=
    filter (fun kv => negb (in_fields (fst kv) (ClobberFields self))) config in
  let intermediary_merged :=
    dict_update (deep_merge merged_config config) clobber in
  dict_update merged_config intermediary_merged.

Definition merge (self : ConfigUpdater) (configs : list dict) : dict :=
  fold_left (merge_step self) configs [].

(** ** SourceConfig *)

Record SourceConfig : Type := {
  active_project : Project;
  own_project : Project;
  model : ModelParts;
  updater : ConfigUpdater;
  in_model_config : dict
}.

Definition get_default (self : SourceConfig) : dict :=
  let defaults :=
    [(KStr "enabled", VBool true); (KStr "materialized", VStr "view")] in
  let defaults :=
    match resource_type (model self) with
    | Seed => dset (KStr "materialized") (VStr "seed") defaults
    | Snapshot => dset (KStr "materialized") (VStr "snapshot") defaults
    | _ => defaults
    end in
  match resource_type (model self) with
  | Test => dset (KStr "severity") (VStr "ERROR") defaults
  | _ => defaults
  end.

Definition load_config_from_own_project (self : SourceConfig) : res dict :=
  get_project_config (updater self) (model self) (own_project self).

Definition load_config_from_active_project (self : SourceConfig)
  : res dict :=
  get_project_config (updater self) (model self) (active_project self).

(** The property [config], evaluated anew at every access. *)
Definition config (self : SourceConfig) : res dict :=
  let defaults := get_default self in
  active_config <- load_config_from_active_project self ;;
  if String.eqb (project_name (active_project self))
                (project_name (own_project self))
  then
    Ok (merge (updater self) [defaults; active_config; in_model_config self])
  else
    own_config <- load_config_from_own_project self ;;
    Ok (merge (updater self)
          [defaults; own_config; in_model_config self; active_config]).

Definition _translate_adapter_aliases (self : SourceConfig) (cfg : dict)
  : res dict :=
  translate_aliases (credentials (active_project self)) cfg.

Definition set_in_model_config (self : SourceConfig) (d : dict)
  : SourceConfig :=
  {| active_project := active_project self;
     own_project := own_project self;
     model := model self;
     updater := updater self;
     in_model_config := d |}.

(** [update_in_model_config] returns nothing; its effect is the new
    state of the resolver, whether or not it raised. *)
Definition update_in_model_config (self : SourceConfig) (cfg : dict)
  : SourceConfig * option exn :=
  match _translate_adapter_aliases self cfg with
  | Raise e => (self, Some e)
  | Ok cfg =>
      match update_into (updater self) (in_model_config self) cfg with
      | (d, e) => (set_in_model_config self d, e)
      end
  end.

(** ** Sample projects and resources *)

Definition str_dict (l : list (string * value)) : dict :=
  map (fun kv => (KStr (fst kv), snd kv)) l.

Definition no_adapter : ConfigUpdater := {| AdapterSpecificConfigs := [] |}.

Definition postgres : ConfigUpdater :=
  {| AdapterSpecificConfigs := ["sort"; "dist"; "sort_type"; "bind"] |}.

Definition plain_credentials : Credentials :=
  {| translate_aliases := fun d => Ok d |}.

Definition project_of (name : string) (m : value) : Project :=
  {| project_name := name; seeds := VNone; snapshots := VNone;
     models := m; credentials := plain_credentials |}.

Definition nested_tree : value :=
  VDict (str_dict
    [("pkgA", VDict (str_dict
       [("materialized", VStr "table");
        ("tags", VList [VStr "a"; VStr "b"]);
        ("sub", VDict (str_dict
           [("tags", VList [VStr "b"; VStr "c"]);
            ("m1", VDict (str_dict
               [("materialized", VStr "incremental")]))]))]))]).

Definition m1 : ModelParts :=
  {| fqn := ["pkgA"; "sub"; "m1"]; resource_type := Model |}.

(** ** Notions used to state the properties *)

(** At most one entry of [d] is stored under the string key [s]. *)
Fixpoint unique (s : string) (d : dict) : Prop :=
  match d with
  | [] => True
  | (k, _) :: d' =>
      if key_eqb (KStr s) k then dget (KStr s) d' = None else unique s d'
  end.

(** First-occurrence de-duplication under Python's equality: the items
    of [l] not yet seen are added to [seen] in order. *)
Fixpoint nub_into (seen l : list value) : list value :=
  match l with
  | [] => seen
  | x :: l' =>
      if py_in x seen then nub_into seen l' else nub_into (seen ++ [x]) l'
  end.

Definition nub (l : list value) : list value := nub_into [] l.

(** No item of [l] is equal to an item of [seen] added so far or to an
    earlier item of [l]. *)
Fixpoint distinct_from (seen l : list value) : bool :=
  match l with
  | [] => true
  | x :: l' => negb (py_in x seen) && distinct_from (seen ++ [x]) l'
  end.

Definition distinct (l : list value) : bool := distinct_from [] l.

(** What a level contributes to the AppendList key [k]. *)
Definition level_items (k : string) (level : value) : list value :=
  match level with
  | VDict d => _listify (get_default_value (KStr k) d (VList []))
  | _ => []
  end.

(** A sequence of level merges into one accumulator, as the path walk
    performs them. *)
Fixpoint merge_levels (self : ConfigUpdater) (mutable_config : dict)
    (levels : list value) : res dict :=
  match levels with
  | [] => Ok mutable_config
  | level :: rest =>
      match update_config_keys_into self mutable_config level with
      | (mc, Ok _) => merge_levels self mc rest
      | (_, Raise e) => Raise e
      end
  end.

(** [d.update(v)] raises, whatever [d] holds. *)
Definition update_rejects (v : value) : bool :=
  match snd (py_dict_update [] v) with
  | Some _ => true
  | None => false
  end.

(** Every AppendList key holds a list and every ExtendDict key a
    dictionary. *)
Definition holds_list (d : dict) (k : string) : bool :=
  match dget (KStr k) d with
  | Some (VList _) => true
  | _ => false
  end.

Definition holds_dict (d : dict) (k : string) : bool :=
  match dget (KStr k) d with
  | Some (VDict _) => true
  | _ => false
  end.

Definition shaped (d : dict) : bool :=
  forallb (holds_list d) AppendListFields &&
  forallb (holds_dict d) ExtendDictFields.

(** Every key has one strategy: no adapter-specific clobber field is
    an AppendList or ExtendDict field. *)
Definition one_strategy (self : ConfigUpdater) : bool :=
  forallb
    (fun k => negb (mem k AppendListFields) && negb (mem k ExtendDictFields))
    (AdapterSpecificConfigs self).



(** [needle in msg] for strings. *)
Definition mentions (needle msg : string) : bool :=
  match String.index 0 needle msg with
  | Some _ => true
  | None => false
  end.

(** The node reached from [node] along [path], when every segment
    names a child that is present. *)
Fixpoint descend (node : value) (path : list string) : option value :=
  match path with
  | [] => Some node
  | level :: rest =>
      match node with
      | VDict d =>
          match dget (KStr level) d with
          | None | Some VNone => None
          | Some child => descend child rest
          end
      | _ => None
      end
  end.

Definition with_fqn (model : ModelParts) (path : list string) : ModelParts :=
  {| fqn := path; resource_type := resource_type model |}.


(** The statement leaves the dictionary as it is or stores one value
    under [k]; this speaks of the dictionary after the statement
    whether or not it raised. *)
Definition writes_only (k : key) (st : stmt) : Prop :=
  forall mc, fst (st mc) = mc \/ exists v, fst (st mc) = dset k v mc.

Definition preserves (P : dict -> Prop) (st : stmt) : Prop :=
  forall mc, P mc -> P (fst (st mc)).

(** The keys of a dictionary are distinct strings taken from
    [fields]. *)
Definition keyed_in (fields : list string) (d : dict) : Prop :=
  NoDup (map fst d) /\
  Forall (fun kv => in_fields (fst kv) fields = true) d.


Definition bad_vars_tree : value :=
  VDict (str_dict [("pkgA", VDict (str_dict [("vars", VInt 5)]))]).

Definition custom_key_resolver : SourceConfig :=
  {| active_project := project_of "root" (VDict []);
     own_project := project_of "root" (VDict []);
     model := {| fqn := ["root"; "m1"]; resource_type := Model |};
     updater := postgres;
     in_model_config := str_dict [("foo", VInt 1)] |}.

Definition fresh_resolver : SourceConfig :=
  {| active_project := project_of "root" (VDict []);
     own_project := project_of "root" (VDict []);
     model := {| fqn := ["root"; "m1"]; resource_type := Model |};
     updater := postgres;
     in_model_config := [] |}.

(** The configuration of [m1] in [nested_tree]. *)
Definition shaped_result : dict :=
  str_dict
    [("pre-hook", VList []); ("post-hook", VList []);
     ("tags", VList [VStr "a"; VStr "b"; VStr "c"]);
     ("vars", VDict []); ("column_types", VDict []); ("quoting", VDict []);
     ("persist_docs", VDict []); ("materialized", VStr "incremental")].

(** The two filters of [merge]. *)
Definition is_clobber (self : ConfigUpdater) (k : key) : bool :=
  in_fields k (ClobberFields self).

Definition not_clobber (self : ConfigUpdater) (k : key) : bool :=
  negb (in_fields k (ClobberFields self)).

(** ** get_project_vars and the notions of the further properties *)

(** [get_project_vars]: the accumulator starts as the empty
    dictionary, without the scaffold of [get_project_config]. *)
Definition get_project_vars (self : ConfigUpdater) (project_vars : value)
  : res dict :=
  let config := [] in
  match update_config_keys_into self config project_vars with
  | (config, Ok _) => Ok config
  | (_, Raise e) => Raise e
  end.

(** A node of a project tree that a level merge accepts: a dictionary
    whose values under the ExtendDict keys are accepted by [update]. *)
Definition node_ok (node : value) : bool :=
  match node with
  | VDict d =>
      forallb
        (fun k =>
           negb (update_rejects (get_default_value (KStr k) d (VDict []))))
        ExtendDictFields
  | _ => false
  end.

(** Every node the walk enters along [levels] is accepted. *)
Fixpoint path_ok (node : value) (levels : list string) : bool :=
  node_ok node &&
  match levels with
  | [] => true
  | level :: rest =>
      match node with
      | VDict d =>
          match dget (KStr level) d with
          | None | Some VNone => true
          | Some child => path_ok child rest
          end
      | _ => false
      end
  end.

(** A resolver of the root package with an in-model configuration. *)
Definition root_resolver (tree : value) (pending : dict) : SourceConfig :=
  {| active_project := project_of "root" tree;
     own_project := project_of "root" tree;
     model := {| fqn := ["root"; "m1"]; resource_type := Model |};
     updater := postgres;
     in_model_config := pending |}.

(** The node has the key [k]. *)
Definition has_key (k : string) (node : value) : bool :=
  match node with
  | VDict d =>
      match dget (KStr k) d with
      | Some _ => true
      | None => false
      end
  | _ => false
  end.

(** No node that the walk enters below [node] along [levels] has the
    key [k]. *)
Fixpoint unset_below (k : string) (node : value) (levels : list string)
  : bool :=
  match levels with
  | [] => true
  | level :: rest =>
      match node with
      | VDict d =>
          match dget (KStr level) d with
          | None | Some VNone => true
          | Some child => negb (has_key k child) && unset_below k child rest
          end
      | _ => true
      end
  end.

(** * Properties *)

Example innermost_clobber_wins :
  option_map (dget (KStr "materialized"))
    (match get_project_config no_adapter m1 (project_of "p" nested_tree) with
     | Ok c => Some c | Raise _ => None end)
  = Some (Some (VStr "incremental")).
Proof. reflexivity. Qed.

Example tags_accumulate :
  option_map (dget (KStr "tags"))
    (match get_project_config no_adapter m1 (project_of "p" nested_tree) with
     | Ok c => Some c | Raise _ => None end)
  = Some (Some (VList [VStr "a"; VStr "b"; VStr "c"])).
Proof. reflexivity. Qed.

Example inline_vars_extend :
  let d1 := fst (update_into no_adapter []
                   (str_dict [("vars", VDict (str_dict [("x", VInt 1)]))])) in
  let d2 := fst (update_into no_adapter d1
                   (str_dict [("vars", VDict (str_dict [("y", VInt 2)]))])) in
  dget (KStr "vars") d2
  = Some (VDict (str_dict [("x", VInt 1); ("y", VInt 2)])).
Proof. reflexivity. Qed.

(** ** Dictionaries looked up at a string key *)

Lemma key_eqb_str_l (s : string) (k : key) :
  key_eqb (KStr s) k = true <-> k = KStr s.
Proof.
  destruct k as [| | |t|]; try (split; discriminate).
  change (String.eqb s t = true <-> KStr t = KStr s).
  rewrite String.eqb_eq. split; intros H; [now subst|now inversion H].
Qed.

Lemma key_eqb_str_r (s : string) (k : key) :
  key_eqb k (KStr s) = true <-> k = KStr s.
Proof.
  destruct k as [| | |t|]; try (split; discriminate).
  change (String.eqb t s = true <-> KStr t = KStr s).
  rewrite String.eqb_eq. split; intros H; [now subst|now inversion H].
Qed.

Lemma key_eqb_str_refl (s : string) : key_eqb (KStr s) (KStr s) = true.
Proof. apply key_eqb_str_l. reflexivity. Qed.

Lemma key_eqb_str_swap (s : string) (k : key) :
  key_eqb (KStr s) k = key_eqb k (KStr s).
Proof.
  destruct (key_eqb (KStr s) k) eqn:E1, (key_eqb k (KStr s)) eqn:E2; trivial.
  - apply key_eqb_str_l in E1. subst. now rewrite key_eqb_str_refl in E2.
  - apply key_eqb_str_r in E2. subst. now rewrite key_eqb_str_refl in E1.
Qed.

Lemma dget_dset (s : string) (k : key) (v : value) (d : dict) :
  dget (KStr s) (dset k v d)
  = if key_eqb (KStr s) k then Some v else dget (KStr s) d.
Proof.
  induction d as [|[k' v'] d IH]; simpl.
  - reflexivity.
  - destruct (key_eqb k k') eqn:Ekk'; simpl.
    + destruct (key_eqb (KStr s) k') eqn:Esk'.
      * apply key_eqb_str_l in Esk'. subst k'.
        apply key_eqb_str_r in Ekk'. subst k.
        now rewrite key_eqb_str_refl.
      * destruct (key_eqb (KStr s) k) eqn:Esk; trivial.
        apply key_eqb_str_l in Esk. subst k. congruence.
    + destruct (key_eqb (KStr s) k') eqn:Esk'.
      * destruct (key_eqb (KStr s) k) eqn:Esk; trivial.
        apply key_eqb_str_l in Esk', Esk. subst.
        now rewrite key_eqb_str_refl in Ekk'.
      * apply IH.
Qed.

Lemma dget_dset_same (s : string) (v : value) (d : dict) :
  dget (KStr s) (dset (KStr s) v d) = Some v.
Proof. now rewrite dget_dset, key_eqb_str_refl. Qed.

Lemma dget_dset_str (s t : string) (v : value) (d : dict) :
  dget (KStr s) (dset (KStr t) v d)
  = if String.eqb s t then Some v else dget (KStr s) d.
Proof. now rewrite dget_dset. Qed.

(** Storing the value a key already holds changes nothing. *)
Lemma dset_same_id (k : key) (v : value) (d : dict) :
  dget k d = Some v -> dset k v d = d.
Proof.
  induction d as [|[k' v'] d IH]; simpl; [discriminate|].
  destruct (key_eqb k k'); intros H.
  - now inversion H.
  - now rewrite IH.
Qed.

Lemma unique_dset (s : string) (k : key) (v : value) (d : dict) :
  unique s d -> unique s (dset k v d).
Proof.
  induction d as [|[k' v'] d IH]; simpl.
  - intros _. now destruct (key_eqb (KStr s) k).
  - destruct (key_eqb k k') eqn:Ekk'; simpl.
    + trivial.
    + destruct (key_eqb (KStr s) k') eqn:Esk'.
      * intros H. rewrite dget_dset, H.
        destruct (key_eqb (KStr s) k) eqn:Esk; trivial.
        apply key_eqb_str_l in Esk', Esk. subst.
        now rewrite key_eqb_str_refl in Ekk'.
      * apply IH.
Qed.

Lemma unique_dict_update (s : string) (b a : dict) :
  unique s a -> unique s (dict_update a b).
Proof.
  unfold dict_update. revert a.
  induction b as [|[k v] b IH]; simpl; intros a H; trivial.
  apply IH. now apply unique_dset.
Qed.

Lemma dget_dict_update_absent (s : string) (b a : dict) :
  dget (KStr s) b = None ->
  dget (KStr s) (dict_update a b) = dget (KStr s) a.
Proof.
  unfold dict_update. revert a.
  induction b as [|[k v] b IH]; simpl; intros a H; trivial.
  destruct (key_eqb (KStr s) k) eqn:E; [discriminate|].
  rewrite IH by assumption. now rewrite dget_dset, E.
Qed.

Lemma dget_dict_update (s : string) (b a : dict) :
  unique s b ->
  dget (KStr s) (dict_update a b)
  = match dget (KStr s) b with
    | Some v => Some v
    | None => dget (KStr s) a
    end.
Proof.
  revert a.
  induction b as [|[k v] b IH]; simpl; intros a H; trivial.
  destruct (key_eqb (KStr s) k) eqn:E.
  - change (dget (KStr s) (dict_update (dset k v a) b) = Some v).
    rewrite dget_dict_update_absent by assumption.
    now rewrite dget_dset, E.
  - change (dget (KStr s) (dict_update (dset k v a) b)
            = match dget (KStr s) b with
              | Some v0 => Some v0
              | None => dget (KStr s) a
              end).
    rewrite IH by assumption. now rewrite dget_dset, E.
Qed.

Lemma dict_wf_unique (s : string) (d : dict) :
  dict_wf d = true -> unique s d.
Proof.
  induction d as [|[k v] d IH]; simpl; trivial.
  intros H. apply andb_true_iff in H as [Hk Hd].
  destruct (key_eqb (KStr s) k) eqn:E; [|now apply IH].
  apply key_eqb_str_l in E. subst k.
  apply negb_true_iff in Hk.
  clear IH Hd. induction d as [|[k' v'] d IH]; simpl in *; trivial.
  apply orb_false_iff in Hk as [H1 H2].
  rewrite H1. now apply IH.
Qed.

Lemma dget_filter (s : string) (p : key -> bool) (d : dict) :
  dget (KStr s) (filter (fun kv => p (fst kv)) d)
  = if p (KStr s) then dget (KStr s) d else None.
Proof.
  induction d as [|[k v] d IH]; simpl.
  - now destruct (p (KStr s)).
  - destruct (key_eqb (KStr s) k) eqn:E.
    + apply key_eqb_str_l in E. subst k.
      destruct (p (KStr s)) eqn:Ep; simpl.
      * now rewrite key_eqb_str_refl.
      * exact IH.
    + destruct (p k); simpl; [rewrite E|]; apply IH.
Qed.

Lemma unique_filter (s : string) (p : key -> bool) (d : dict) :
  unique s d -> unique s (filter (fun kv => p (fst kv)) d).
Proof.
  induction d as [|[k v] d IH]; simpl; trivial.
  destruct (key_eqb (KStr s) k) eqn:E.
  - intros H. destruct (p k); simpl.
    + rewrite E, dget_filter, H. now destruct (p (KStr s)).
    + apply IH. clear IH.
      induction d as [|[k' v'] d IH]; simpl in *; trivial.
      destruct (key_eqb (KStr s) k'); [discriminate|]. now apply IH.
  - intros H. destruct (p k); simpl; [rewrite E|]; now apply IH.
Qed.

(** ** The merge of whole configurations, key by key *)

Lemma merge_value_fresh (x : value) : merge_value None x = x.
Proof. now destruct x. Qed.

Lemma unique_deep_merge (s : string) (r l : dict) :
  unique s l -> unique s (deep_merge l r).
Proof.
  unfold deep_merge. revert l.
  induction r as [|[k x] r IH]; simpl; intros l H; trivial.
  apply IH. now apply unique_dset.
Qed.

Lemma dget_deep_merge_absent (s : string) (r l : dict) :
  dget (KStr s) r = None ->
  dget (KStr s) (deep_merge l r) = dget (KStr s) l.
Proof.
  unfold deep_merge. revert l.
  induction r as [|[k x] r IH]; simpl; intros l H; trivial.
  destruct (key_eqb (KStr s) k) eqn:E; [discriminate|].
  rewrite IH by assumption. now rewrite dget_dset, E.
Qed.

Lemma dget_deep_merge_fresh (s : string) (r l : dict) :
  dget (KStr s) l = None -> unique s r ->
  dget (KStr s) (deep_merge l r) = dget (KStr s) r.
Proof.
  revert l.
  induction r as [|[k x] r IH]; simpl; intros l Hl Hr; trivial.
  destruct (key_eqb (KStr s) k) eqn:E.
  - change (dget (KStr s)
              (deep_merge (dset k (merge_value (dget k l) x) l) r) = Some x).
    rewrite dget_deep_merge_absent by assumption.
    rewrite dget_dset, E.
    apply key_eqb_str_l in E. subst k.
    now rewrite Hl, merge_value_fresh.
  - change (dget (KStr s)
              (deep_merge (dset k (merge_value (dget k l) x) l) r)
            = dget (KStr s) r).
    apply IH; trivial. now rewrite dget_dset, E.
Qed.

Section MergeStep.
Variable self : ConfigUpdater.

Lemma merge_step_eq (merged cfg : dict) :
  merge_step self merged cfg
  = dict_update merged
      (dict_update
         (deep_merge merged (filter (fun kv => not_clobber self (fst kv)) cfg))
         (filter (fun kv => is_clobber self (fst kv)) cfg)).
Proof. reflexivity. Qed.

Lemma unique_merge_step (s : string) (merged cfg : dict) :
  unique s merged -> unique s (merge_step self merged cfg).
Proof. intros H. now apply unique_dict_update. Qed.

(** A clobber field takes the value of the configuration merged in,
    when it has one. *)
Lemma merge_step_clobber (s : string) (merged cfg : dict) :
  mem s (ClobberFields self) = true ->
  unique s merged -> unique s cfg ->
  dget (KStr s) (merge_step self merged cfg)
  = match dget (KStr s) cfg with
    | Some v => Some v
    | None => dget (KStr s) merged
    end.
Proof.
  intros Hc Hm Hu. rewrite merge_step_eq.
  rewrite dget_dict_update
    by now apply unique_dict_update, unique_deep_merge.
  rewrite dget_dict_update by now apply unique_filter.
  rewrite (dget_filter s (is_clobber self)).
  rewrite dget_deep_merge_absent
    by (rewrite (dget_filter s (not_clobber self));
        unfold not_clobber; cbn [in_fields]; now rewrite Hc).
  unfold is_clobber. cbn [in_fields]. rewrite Hc.
  now destruct (dget (KStr s) cfg), (dget (KStr s) merged).
Qed.

(** A key the configuration merged in does not have keeps its
    value. *)
Lemma merge_step_absent (s : string) (merged cfg : dict) :
  dget (KStr s) cfg = None -> unique s merged ->
  dget (KStr s) (merge_step self merged cfg) = dget (KStr s) merged.
Proof.
  intros Hn Hm. rewrite merge_step_eq.
  rewrite dget_dict_update
    by now apply unique_dict_update, unique_deep_merge.
  rewrite dget_dict_update_absent
    by (rewrite (dget_filter s (is_clobber self)), Hn; now destruct (is_clobber self _)).
  rewrite dget_deep_merge_absent
    by (rewrite (dget_filter s (not_clobber self)), Hn;
        now destruct (not_clobber self _)).
  now destruct (dget (KStr s) merged).
Qed.

(** A key the running result does not have yet takes the value of
    the configuration merged in. *)
Lemma merge_step_fresh (s : string) (merged cfg : dict) :
  dget (KStr s) merged = None -> unique s merged -> unique s cfg ->
  dget (KStr s) (merge_step self merged cfg) = dget (KStr s) cfg.
Proof.
  intros Hn Hm Hu. rewrite merge_step_eq.
  rewrite dget_dict_update
    by now apply unique_dict_update, unique_deep_merge.
  rewrite dget_dict_update by now apply unique_filter.
  rewrite (dget_filter s (is_clobber self)).
  rewrite dget_deep_merge_fresh by (trivial; now apply unique_filter).
  rewrite (dget_filter s (not_clobber self)). unfold not_clobber.
  rewrite Hn.
  destruct (is_clobber self (KStr s)) eqn:E; unfold is_clobber in E;
    rewrite E; simpl; now destruct (dget (KStr s) cfg).
Qed.

Lemma unique_merge_from (s : string) (configs : list dict) (merged : dict) :
  unique s merged -> unique s (fold_left (merge_step self) configs merged).
Proof.
  revert merged.
  induction configs as [|c configs IH]; simpl; intros merged H; trivial.
  apply IH. now apply unique_merge_step.
Qed.

Lemma merge_from_absent (s : string) (configs : list dict) (merged : dict) :
  Forall (fun c => dget (KStr s) c = None) configs -> unique s merged ->
  dget (KStr s) (fold_left (merge_step self) configs merged)
  = dget (KStr s) merged.
Proof.
  revert merged.
  induction configs as [|c configs IH]; simpl; intros merged Hall Hm; trivial.
  inversion Hall; subst.
  rewrite IH by (trivial; now apply unique_merge_step).
  now apply merge_step_absent.
Qed.

(** The value of a clobber field after [merge] is the one of the
    last configuration that has the field. *)
Lemma merge_clobber_last (s : string) (v : value)
    (pre post : list dict) (c : dict) :
  mem s (ClobberFields self) = true ->
  unique s c ->
  dget (KStr s) c = Some v ->
  Forall (fun c' => dget (KStr s) c' = None) post ->
  dget (KStr s) (merge self (pre ++ c :: post)) = Some v.
Proof.
  intros Hc Hu Hv Hpost. unfold merge.
  rewrite fold_left_app. simpl.
  assert (Hm : unique s (fold_left (merge_step self) pre []))
    by now apply unique_merge_from.
  rewrite merge_from_absent by (trivial; now apply unique_merge_step).
  rewrite merge_step_clobber by trivial. now rewrite Hv.
Qed.
End MergeStep.

(** ** Statements and the keys they write *)

Lemma preserves_seq (P : dict -> Prop) (s1 s2 : stmt) :
  preserves P s1 -> preserves P s2 -> preserves P (seq s1 s2).
Proof.
  intros H1 H2 mc HP. unfold seq.
  specialize (H1 mc HP).
  destruct (s1 mc) as [mc1 [e|]]; simpl in *; trivial.
  now apply H2.
Qed.

Lemma preserves_for_keys (P : dict -> Prop) (body : string -> stmt)
    (keys : list string) :
  (forall k, In k keys -> preserves P (body k)) ->
  preserves P (for_keys body keys).
Proof.
  induction keys as [|k keys IH]; simpl; intros H.
  - now intros mc HP.
  - apply preserves_seq; [apply H; now left|].
    apply IH. intros k' Hk'. apply H. now right.
Qed.

Lemma writes_only_preserves (P : dict -> Prop) (k : key) (st : stmt) :
  writes_only k st ->
  (forall v mc, P mc -> P (dset k v mc)) ->
  preserves P st.
Proof.
  intros Hw Hd mc HP.
  destruct (Hw mc) as [E|[v E]]; rewrite E; auto.
Qed.

Lemma append_field_writes (rel : dict) (k : string) :
  writes_only (KStr k) (append_field rel k).
Proof.
  intros mc. unfold append_field.
  destruct (dget (KStr k) mc) as [[]|]; simpl; eauto.
Qed.

Lemma extend_field_writes (rel : dict) (k : string) :
  writes_only (KStr k) (extend_field rel k).
Proof.
  intros mc. unfold extend_field.
  destruct (dget (KStr k) mc) as [[]|]; simpl; eauto.
  destruct (py_dict_update _ _) as [cur' [e|]]; simpl; eauto.
Qed.

Lemma clobber_field_writes (rel : dict) (k : string) :
  writes_only (KStr k) (clobber_field rel k).
Proof.
  intros mc. unfold clobber_field.
  destruct (dget (KStr k) rel); simpl; eauto.
Qed.

Lemma update_into_item_writes (kv : key * value) :
  writes_only (fst kv) (update_into_item kv).
Proof.
  intros mc. unfold update_into_item.
  destruct (fst kv) as [| | |s|] eqn:Ek; simpl; eauto.
  destruct (mem s AppendListFields); simpl; eauto.
  destruct (mem s ExtendDictFields); simpl; eauto.
  destruct (get_default_value _ _ _); simpl; eauto.
  destruct (py_dict_update _ _) as [d' [e|]]; simpl; eauto.
  destruct (dget (KStr s) mc); eauto.
Qed.

(** The dictionary after [update_config_keys_into], through its three
    loops. *)
Lemma update_config_keys_into_preserves (P : dict -> Prop)
    (self : ConfigUpdater) (new_configs : value) :
  (forall rel k, In k AppendListFields -> preserves P (append_field rel k)) ->
  (forall rel k, In k ExtendDictFields -> preserves P (extend_field rel k)) ->
  (forall rel k, In k (ClobberFields self) ->
                 preserves P (clobber_field rel k)) ->
  forall mc, P mc -> P (fst (update_config_keys_into self mc new_configs)).
Proof.
  intros Ha He Hc mc HP. unfold update_config_keys_into.
  destruct (relevant_of self new_configs) as [rel|e]; simpl; trivial.
  assert (H : preserves P
                (seq (for_keys (append_field rel) AppendListFields)
                   (seq (for_keys (extend_field rel) ExtendDictFields)
                      (for_keys (clobber_field rel) (ClobberFields self))))).
  { apply preserves_seq; [|apply preserves_seq];
      apply preserves_for_keys; auto. }
  specialize (H mc HP).
  now destruct (seq _ _ mc) as [mc' [e|]].
Qed.


(** Membership in the field sets. *)
Lemma mem_In (s : string) (l : list string) : mem s l = true <-> In s l.
Proof.
  unfold mem. rewrite existsb_exists. split.
  - intros [x [Hin Heq]]. apply String.eqb_eq in Heq. now subst.
  - intros H. exists s. split; trivial. apply String.eqb_refl.
Qed.

Lemma mem_union (s : string) (a b : list string) :
  mem s (union a b) = mem s a || mem s b.
Proof.
  unfold union, mem. rewrite existsb_app.
  destruct (existsb (String.eqb s) a) eqn:Ea; simpl; trivial.
  induction b as [|x b IH]; simpl; trivial.
  destruct (String.eqb s x) eqn:Esx; simpl.
  - apply String.eqb_eq in Esx. subst x.
    rewrite Ea. simpl. now rewrite String.eqb_refl.
  - destruct (negb (existsb (String.eqb x) a)); simpl; [rewrite Esx|];
      apply IH.
Qed.

Lemma mem_ConfigKeys (self : ConfigUpdater) (s : string) :
  mem s (ConfigKeys self)
  = mem s AppendListFields || mem s ExtendDictFields
    || mem s (ClobberFields self).
Proof. unfold ConfigKeys. now rewrite !mem_union. Qed.

(** A key outside a loop's key list is not touched by the loop. *)
Lemma dget_frame (s : string) (k : key) (st : stmt) (mc : dict) :
  writes_only k st -> key_eqb (KStr s) k = false ->
  dget (KStr s) (fst (st mc)) = dget (KStr s) mc.
Proof.
  intros Hw Hk. destruct (Hw mc) as [E|[v E]]; rewrite E; trivial.
  now rewrite dget_dset, Hk.
Qed.

Lemma key_eqb_str_neq (s t : string) :
  s <> t -> key_eqb (KStr s) (KStr t) = false.
Proof.
  intros H. destruct (key_eqb (KStr s) (KStr t)) eqn:E; trivial.
  apply key_eqb_str_l in E. inversion E. congruence.
Qed.

Lemma for_keys_frame (s : string) (body : string -> stmt)
    (keys : list string) (mc : dict) :
  (forall k, writes_only (KStr k) (body k)) ->
  mem s keys = false ->
  dget (KStr s) (fst (for_keys body keys mc)) = dget (KStr s) mc.
Proof.
  intros Hw Hs.
  apply (preserves_for_keys (fun m => dget (KStr s) m = dget (KStr s) mc));
    trivial.
  intros k Hk m Hm. rewrite <- Hm.
  apply (dget_frame s (KStr k)); trivial.
  apply key_eqb_str_neq. intros ->.
  apply mem_In in Hk. congruence.
Qed.

(** ** Defaults *)

(** C8: for every resource kind the defaults are exactly [enabled] set
    to true and [materialized] set to "view", with "seed" for a seed
    and "snapshot" for a snapshot, followed by [severity] set to
    "ERROR" exactly when the kind is test; there is no other key. *)
Theorem get_default_by_kind (self : SourceConfig) :
  get_default self
  = str_dict
      ([("enabled", VBool true);
        ("materialized",
         VStr match resource_type (model self) with
              | Seed => "seed"
              | Snapshot => "snapshot"
              | _ => "view"
              end)]
       ++ match resource_type (model self) with
          | Test => [("severity", VStr "ERROR")]
          | _ => []
          end).
Proof.
  unfold get_default. now destruct (resource_type (model self)).
Qed.

(** ** The path walk *)





(** ** Clobber fields across scopes *)

(** C3: whatever configurations are passed to [merge], the value of a
    clobber field in the result is the value of the last configuration
    that has the field; the values given by the configurations before
    it play no part. *)
Theorem merge_clobber_most_precedent (self : ConfigUpdater) (k : string)
    (v : value) (pre post : list dict) (c : dict) :
  mem k (ClobberFields self) = true ->
  dict_wf c = true ->
  dget (KStr k) c = Some v ->
  Forall (fun c' => dget (KStr k) c' = None) post ->
  dget (KStr k) (merge self (pre ++ c :: post)) = Some v.
Proof.
  intros Hc Hwf Hv Hpost.
  apply merge_clobber_last; trivial. now apply dict_wf_unique.
Qed.

Lemma merge_clobber_most_precedent_witness :
  dget (KStr "materialized")
    (merge postgres
       ([str_dict [("materialized", VStr "view")];
         str_dict [("materialized", VList [VStr "x"]); ("sort", VInt 1)]]
        ++ str_dict [("materialized", VStr "table")]
        :: [str_dict [("tags", VList [VStr "t"])]]))
  = Some (VStr "table").
Proof.
  apply merge_clobber_most_precedent.
  - reflexivity.
  - reflexivity.
  - reflexivity.
  - repeat constructor.
Defined.

(** ** The entries of the dictionaries built by the comprehensions *)

Lemma map_fst_dset (k : key) (v : value) (d : dict) :
  map fst (dset k v d)
  = match dget k d with
    | Some _ => map fst d
    | None => map fst d ++ [k]
    end.
Proof.
  induction d as [|[k' v'] d IH]; simpl; trivial.
  destruct (key_eqb k k'); simpl; trivial.
  rewrite IH. now destruct (dget k d).
Qed.

Lemma dget_none_not_in (s : string) (d : dict) :
  dget (KStr s) d = None -> ~ In (KStr s) (map fst d).
Proof.
  induction d as [|[k' v'] d IH]; simpl; [tauto|].
  destruct (key_eqb (KStr s) k') eqn:E; [discriminate|].
  intros H [Hk|Hin]; [|now apply IH].
  subst k'. now rewrite key_eqb_str_refl in E.
Qed.

Lemma NoDup_snoc {A : Type} (l : list A) (x : A) :
  NoDup l -> ~ In x l -> NoDup (l ++ [x]).
Proof.
  intros Hl Hx. induction Hl as [|y l Hy Hl IH]; simpl.
  - constructor; [tauto|constructor].
  - constructor.
    + rewrite in_app_iff. simpl. intros [H|[H|[]]]; [tauto|].
      subst. apply Hx. now left.
    + apply IH. intros H. apply Hx. now right.
Qed.

Lemma NoDup_keys_dset (s : string) (v : value) (d : dict) :
  NoDup (map fst d) -> NoDup (map fst (dset (KStr s) v d)).
Proof.
  intros H. rewrite map_fst_dset.
  destruct (dget (KStr s) d) eqn:E; trivial.
  apply NoDup_snoc; trivial. now apply dget_none_not_in.
Qed.

Lemma Forall_keys_dset (Q : key -> Prop) (k : key) (v : value) (d : dict) :
  Q k -> Forall (fun kv => Q (fst kv)) d ->
  Forall (fun kv => Q (fst kv)) (dset k v d).
Proof.
  intros Hk Hd. induction Hd as [|[k' v'] d Hk' Hd IH]; simpl.
  - now repeat constructor.
  - destruct (key_eqb k k'); constructor; trivial.
Qed.

Lemma In_dset_str (s : string) (v : value) (d : dict) (kv : key * value) :
  In kv (dset (KStr s) v d) -> kv = (KStr s, v) \/ In kv d.
Proof.
  induction d as [|[k' v'] d IH]; simpl.
  - intros [H|[]]. now left.
  - destruct (key_eqb (KStr s) k') eqn:E; simpl.
    + apply key_eqb_str_l in E. subst k'. intros [H|H]; auto.
    + intros [H|H]; auto. destruct (IH H); auto.
Qed.

Lemma In_dget (s : string) (v : value) (d : dict) :
  NoDup (map fst d) -> In (KStr s, v) d -> dget (KStr s) d = Some v.
Proof.
  induction d as [|[k' v'] d IH]; simpl; [tauto|].
  intros Hnd Hin. inversion Hnd as [|? ? Hk' Hd]; subst.
  destruct (key_eqb (KStr s) k') eqn:E.
  - apply key_eqb_str_l in E. subst k'.
    destruct Hin as [H|H]; [now inversion H|].
    exfalso. apply Hk'. now apply (in_map fst) in H.
  - destruct Hin as [H|H]; [|now apply IH].
    inversion H; subst. now rewrite key_eqb_str_refl in E.
Qed.

Lemma dict_update_id (b a : dict) :
  (forall k v, In (k, v) b -> dget k a = Some v) -> dict_update a b = a.
Proof.
  unfold dict_update.
  induction b as [|[k v] b IH]; simpl; intros H; trivial.
  rewrite dset_same_id by (apply H; now left).
  apply IH. intros k' v' Hin. apply H. now right.
Qed.

Lemma in_fields_str (k : key) (fields : list string) :
  in_fields k fields = true -> exists s, k = KStr s /\ mem s fields = true.
Proof. destruct k; simpl; try discriminate. eauto. Qed.

Lemma keyed_in_dset (fields : list string) (k : key) (v : value) (d : dict) :
  in_fields k fields = true -> keyed_in fields d ->
  keyed_in fields (dset k v d).
Proof.
  intros Hk [Hnd Hall]. split.
  - destruct (in_fields_str _ _ Hk) as [s [-> _]]. now apply NoDup_keys_dset.
  - now apply (Forall_keys_dset (fun k => in_fields k fields = true)).
Qed.

Lemma relevant_of_keyed (self : ConfigUpdater) (new_configs : value)
    (rel : dict) :
  relevant_of self new_configs = Ok rel -> keyed_in (ConfigKeys self) rel.
Proof.
  assert (Hnil : keyed_in (ConfigKeys self) []) by (split; constructor).
  unfold relevant_of.
  destruct new_configs as [| | | | | |d];
    try (simpl; try discriminate;
         destruct (existsb _ _); try discriminate;
         intros H; now inversion H).
  intros H. inversion H as [Hrel]. clear H Hrel.
  pattern d at 2. generalize d at 2. revert Hnil.
  generalize (@nil (key * value)).
  intros acc Hacc l. revert acc Hacc.
  induction l as [|[k x] l IH]; simpl; intros acc Hacc; trivial.
  apply IH.
  destruct (in_fields k (ConfigKeys self)) eqn:Ek; trivial.
  destruct (dget k d); trivial. now apply keyed_in_dset.
Qed.

Lemma relevant_of_dget (self : ConfigUpdater) (d rel : dict) (s : string) :
  relevant_of self (VDict d) = Ok rel ->
  dget (KStr s) rel
  = if mem s (ConfigKeys self) then dget (KStr s) d else None.
Proof.
  intros H. inversion H as [Hrel]. clear H Hrel.
  set (f := fun (acc : dict) (kv : key * value) =>
              if in_fields (fst kv) (ConfigKeys self)
              then match dget (fst kv) d with
                   | Some v => dset (fst kv) v acc
                   | None => acc
                   end
              else acc).
  assert (G : forall l acc,
             dget (KStr s) (fold_left f l acc)
             = match dget (KStr s) l with
               | Some _ =>
                   if mem s (ConfigKeys self)
                   then match dget (KStr s) d with
                        | Some v => Some v
                        | None => dget (KStr s) acc
                        end
                   else dget (KStr s) acc
               | None => dget (KStr s) acc
               end).
  { induction l as [|[k x] l IH]; intros acc; simpl; trivial.
    rewrite IH.
    assert (Hacc : dget (KStr s) (f acc (k, x))
                   = if key_eqb (KStr s) k
                     then if mem s (ConfigKeys self)
                          then match dget (KStr s) d with
                               | Some v => Some v
                               | None => dget (KStr s) acc
                               end
                          else dget (KStr s) acc
                     else dget (KStr s) acc).
    { unfold f. simpl fst.
      destruct (key_eqb (KStr s) k) eqn:E.
      - apply key_eqb_str_l in E. subst k. cbn [in_fields].
        destruct (mem s (ConfigKeys self)); trivial.
        destruct (dget (KStr s) d); trivial. apply dget_dset_same.
      - destruct (in_fields k (ConfigKeys self)); trivial.
        destruct (dget k d); trivial. now rewrite dget_dset, E. }
    rewrite Hacc.
    destruct (key_eqb (KStr s) k), (dget (KStr s) l),
      (mem s (ConfigKeys self)), (dget (KStr s) d); trivial. }
  rewrite (G d []). simpl.
  now destruct (dget (KStr s) d), (mem s (ConfigKeys self)).
Qed.

Lemma clobber_configs_of_In (fields : list string) (rel : dict)
    (kv : key * value) :
  keyed_in fields rel ->
  In kv (clobber_configs_of rel) ->
  In kv rel /\
  in_fields (fst kv) AppendListFields = false /\
  in_fields (fst kv) ExtendDictFields = false.
Proof.
  intros [_ Hall]. unfold clobber_configs_of.
  assert (G : forall l acc,
             Forall (fun kv => in_fields (fst kv) fields = true) l ->
             In kv (fold_left
                      (fun acc kv =>
                         if negb (in_fields (fst kv) AppendListFields) &&
                            negb (in_fields (fst kv) ExtendDictFields)
                         then dset (fst kv) (snd kv) acc
                         else acc) l acc) ->
             In kv acc \/
             (In kv l /\
              in_fields (fst kv) AppendListFields = false /\
              in_fields (fst kv) ExtendDictFields = false)).
  { induction l as [|[k x] l IH]; simpl; intros acc Hl Hin; auto.
    inversion Hl as [|? ? Hk Hl']; subst.
    destruct (IH _ Hl' Hin) as [H|[H1 H2]]; [|now auto].
    simpl in Hk. destruct (in_fields_str _ _ Hk) as [s [-> _]].
    destruct (negb (in_fields (KStr s) AppendListFields) &&
              negb (in_fields (KStr s) ExtendDictFields)) eqn:E; auto.
    apply In_dset_str in H. destruct H as [H|H]; auto.
    subst kv. right. split; [now left|].
    apply andb_true_iff in E as [E1 E2].
    now apply negb_true_iff in E1, E2. }
  intros Hin. destruct (G rel [] Hall Hin) as [[]|H]; trivial.
Qed.

(** ** The second application of the clobber fields *)

Lemma seq_ok (s1 s2 : stmt) (mc m : dict) :
  seq s1 s2 mc = (m, None) ->
  exists m1, s1 mc = (m1, None) /\ s2 m1 = (m, None).
Proof.
  unfold seq. destruct (s1 mc) as [m1 [e|]]; [discriminate|]. eauto.
Qed.

Lemma clobber_loop_fst (rel : dict) (keys : list string) (mc : dict) :
  for_keys (clobber_field rel) keys mc
  = (fst (for_keys (clobber_field rel) keys mc), None).
Proof.
  revert mc. induction keys as [|k keys IH]; intros mc; simpl; trivial.
  unfold seq. unfold clobber_field at 1 3.
  destruct (dget (KStr k) rel); rewrite IH; reflexivity.
Qed.

(** After the clobber loop every clobber field of [relevant_configs]
    holds its value. *)
Lemma clobber_loop_sets (rel : dict) (s : string) (v : value)
    (keys : list string) (mc : dict) :
  mem s keys = true -> dget (KStr s) rel = Some v ->
  dget (KStr s) (fst (for_keys (clobber_field rel) keys mc)) = Some v.
Proof.
  intros Hs Hv. revert mc Hs.
  induction keys as [|k keys IH]; intros mc Hs; [discriminate|].
  simpl. unfold seq.
  destruct (clobber_field rel k mc) as [mc1 [e|]] eqn:Ek.
  - unfold clobber_field in Ek. destruct (dget (KStr k) rel); discriminate.
  - destruct (mem s keys) eqn:Hks; [now apply IH|].
    rewrite for_keys_frame by (trivial; apply clobber_field_writes).
    unfold mem in Hs, Hks. simpl in Hs. rewrite Hks in Hs.
    rewrite orb_false_r in Hs. apply String.eqb_eq in Hs. subst k.
    unfold clobber_field in Ek. rewrite Hv in Ek. inversion Ek.
    apply dget_dset_same.
Qed.

Lemma update_config_keys_into_ok (self : ConfigUpdater) (mc : dict)
    (new_configs : value) (mc' rel : dict) :
  update_config_keys_into self mc new_configs = (mc', Ok rel) ->
  relevant_of self new_configs = Ok rel /\
  exists m1 m2,
    for_keys (append_field rel) AppendListFields mc = (m1, None) /\
    for_keys (extend_field rel) ExtendDictFields m1 = (m2, None) /\
    for_keys (clobber_field rel) (ClobberFields self) m2 = (mc', None).
Proof.
  unfold update_config_keys_into.
  destruct (relevant_of self new_configs) as [r|e]; [|discriminate].
  destruct (seq _ _ mc) as [m [e|]] eqn:E; [discriminate|].
  intros H. inversion H; subst. split; trivial.
  apply seq_ok in E as [m1 [E1 E]].
  apply seq_ok in E as [m2 [E2 E3]]. eauto.
Qed.

(** What [config.update(clobber_configs)] stores is already there. *)
Lemma reapply_noop (self : ConfigUpdater) (config : dict)
    (level_config : value) (config1 rel : dict) :
  update_config_keys_into self config level_config = (config1, Ok rel) ->
  dict_update config1 (clobber_configs_of rel) = config1.
Proof.
  intros H. apply update_config_keys_into_ok in H
    as [Hrel [m1 [m2 [_ [_ Hc]]]]].
  pose proof (relevant_of_keyed _ _ _ Hrel) as Hk.
  apply dict_update_id. intros k v Hin.
  destruct (clobber_configs_of_In _ _ _ Hk Hin) as [Hin' [Ha He]].
  destruct Hk as [Hnd Hall].
  rewrite Forall_forall in Hall. specialize (Hall _ Hin').
  cbn [fst] in Hall, Ha, He.
  destruct (in_fields_str _ _ Hall) as [s [-> Hs]].
  cbn [in_fields] in Ha, He.
  rewrite mem_ConfigKeys, Ha, He in Hs. simpl in Hs.
  replace config1
    with (fst (for_keys (clobber_field rel) (ClobberFields self) m2))
    by now rewrite Hc.
  apply clobber_loop_sets; trivial. now apply In_dget.
Qed.

Lemma walk_levels_single_eq (self : ConfigUpdater) (levels : list string) :
  forall (config : dict) (model_configs : value),
    walk_levels self levels config model_configs
    = walk_levels_single self levels config model_configs.
Proof.
  induction levels as [|level rest IH]; intros config model_configs; trivial.
  simpl. destruct (py_get model_configs level) as [[lc|]|e]; simpl; trivial.
  destruct (update_config_keys_into self config lc) as [c1 [rel|e]] eqn:E.
  - rewrite (reapply_noop _ _ _ _ _ E), IH. reflexivity.
  - reflexivity.
Qed.

(** C9: applying the non-AppendList, non-ExtendDict part of a level's
    recognized fields a second time changes nothing:
    [get_project_config] returns what it returns with that statement
    removed, for every resource and project, errors included. *)
Theorem second_clobber_application_redundant (self : ConfigUpdater)
    (model : ModelParts) (project : Project) :
  get_project_config self model project
  = get_project_config_single self model project.
Proof.
  unfold get_project_config, get_project_config_single.
  destruct (select_configs model project); trivial;
    destruct (update_config_keys_into self scaffold _) as [c [r|e]]; trivial;
    apply walk_levels_single_eq.
Qed.

(** ** Invariants of the path walk *)

Lemma get_project_config_inv (P : dict -> Prop) (self : ConfigUpdater)
    (model : ModelParts) (project : Project) (cfg : dict) :
  P scaffold ->
  (forall mc new_configs,
      P mc -> P (fst (update_config_keys_into self mc new_configs))) ->
  get_project_config self model project = Ok cfg -> P cfg.
Proof.
  intros H0 Hstep. unfold get_project_config.
  assert (W : forall levels config node,
             P config ->
             walk_levels self levels config node = Ok cfg -> P cfg).
  { intros levels config node. rewrite walk_levels_single_eq.
    revert config node.
    induction levels as [|level rest IH]; simpl; intros config node HP.
    - intros H. now inversion H; subst.
    - destruct (py_get node level) as [[lc|]|e]; simpl;
        try discriminate; try (intros H; now inversion H; subst).
      pose proof (Hstep config lc HP) as HP1.
      destruct (update_config_keys_into self config lc) as [c1 [rel|e]];
        destruct lc; try discriminate;
        try (intros H; now inversion H; subst); now apply IH. }
  pose proof (Hstep scaffold (select_configs model project) H0) as HP1.
  destruct (select_configs model project);
    try (intros H; now inversion H; subst);
    destruct (update_config_keys_into self scaffold _) as [c [r|e]];
    try discriminate; now apply W.
Qed.



(** *** The shape of the accumulator *)

Lemma shaped_spec (d : dict) :
  shaped d = true <->
  (forall k, In k AppendListFields -> holds_list d k = true) /\
  (forall k, In k ExtendDictFields -> holds_dict d k = true).
Proof.
  unfold shaped. now rewrite andb_true_iff, !forallb_forall.
Qed.

Lemma append_not_extend (k : string) :
  In k AppendListFields -> ~ In k ExtendDictFields.
Proof.
  intros H1 H2. apply mem_In in H2.
  simpl in H1. destruct H1 as [<-|[<-|[<-|[]]]]; discriminate.
Qed.

Lemma shaped_dset_list (k : string) (l : list value) (d : dict) :
  In k AppendListFields -> shaped d = true ->
  shaped (dset (KStr k) (VList l) d) = true.
Proof.
  rewrite !shaped_spec. intros Hk [Ha He]. split; intros k' Hk'.
  - unfold holds_list. rewrite dget_dset_str.
    destruct (String.eqb k' k); trivial. now apply Ha.
  - unfold holds_dict. rewrite dget_dset_str.
    destruct (String.eqb k' k) eqn:E; [|now apply He].
    apply String.eqb_eq in E. subst. now apply append_not_extend in Hk.
Qed.

Lemma shaped_dset_dict (k : string) (x : dict) (d : dict) :
  In k ExtendDictFields -> shaped d = true ->
  shaped (dset (KStr k) (VDict x) d) = true.
Proof.
  rewrite !shaped_spec. intros Hk [Ha He]. split; intros k' Hk'.
  - unfold holds_list. rewrite dget_dset_str.
    destruct (String.eqb k' k) eqn:E; [|now apply Ha].
    apply String.eqb_eq in E. subst. now apply append_not_extend in Hk'.
  - unfold holds_dict. rewrite dget_dset_str.
    destruct (String.eqb k' k); trivial. now apply He.
Qed.

Lemma shaped_dset_other (k : string) (v : value) (d : dict) :
  mem k AppendListFields = false -> mem k ExtendDictFields = false ->
  shaped d = true -> shaped (dset (KStr k) v d) = true.
Proof.
  rewrite !shaped_spec. intros Hka Hke [Ha He].
  split; intros k' Hk'; unfold holds_list, holds_dict;
    rewrite dget_dset_str;
    (destruct (String.eqb k' k) eqn:E;
     [apply String.eqb_eq in E; subst k'; apply mem_In in Hk'; congruence|]).
  - now apply Ha.
  - now apply He.
Qed.

Lemma clobber_not_accumulating (self : ConfigUpdater) (k : string) :
  one_strategy self = true -> In k (ClobberFields self) ->
  mem k AppendListFields = false /\ mem k ExtendDictFields = false.
Proof.
  intros H1 Hk. apply mem_In in Hk. unfold ClobberFields in Hk.
  rewrite mem_union in Hk. apply orb_true_iff in Hk as [Hk|Hk].
  - apply mem_In in Hk. simpl in Hk.
    repeat (destruct Hk as [<-|Hk]; [now split|]). destruct Hk.
  - unfold one_strategy in H1. rewrite forallb_forall in H1.
    apply mem_In in Hk. specialize (H1 _ Hk).
    apply andb_true_iff in H1 as [Ha He].
    now apply negb_true_iff in Ha, He.
Qed.

Lemma update_config_keys_into_shaped (self : ConfigUpdater)
    (mc : dict) (new_configs : value) :
  one_strategy self = true -> shaped mc = true ->
  shaped (fst (update_config_keys_into self mc new_configs)) = true.
Proof.
  intros H1.
  apply (update_config_keys_into_preserves (fun m => shaped m = true)).
  - intros rel k Hk m Hm. unfold append_field.
    destruct (dget (KStr k) m) as [[]|]; simpl; trivial.
    now apply shaped_dset_list.
  - intros rel k Hk m Hm. unfold extend_field.
    destruct (dget (KStr k) m) as [[]|]; simpl; trivial.
    destruct (py_dict_update _ _) as [cur' [e|]]; simpl;
      now apply shaped_dset_dict.
  - intros rel k Hk m Hm. unfold clobber_field.
    destruct (dget (KStr k) rel); simpl; trivial.
    destruct (clobber_not_accumulating self k H1 Hk).
    now apply shaped_dset_other.
Qed.

(** C7: the walk starts from a scaffold in which every AppendList key
    holds the empty list and every ExtendDict key the empty
    dictionary, and every configuration [get_project_config] returns
    holds a list under every AppendList key and a dictionary under
    every ExtendDict key.  Each key has one strategy here: the
    adapter's clobber fields are not AppendList or ExtendDict
    fields. *)
Theorem project_config_shape (self : ConfigUpdater) (model : ModelParts)
    (project : Project) (cfg : dict) :
  one_strategy self = true ->
  get_project_config self model project = Ok cfg ->
  (forall k, In k AppendListFields ->
             dget (KStr k) scaffold = Some (VList []) /\
             exists l, dget (KStr k) cfg = Some (VList l)) /\
  (forall k, In k ExtendDictFields ->
             dget (KStr k) scaffold = Some (VDict []) /\
             exists d, dget (KStr k) cfg = Some (VDict d)).
Proof.
  intros H1 Hcfg.
  assert (Hs : shaped cfg = true).
  { revert Hcfg. apply (get_project_config_inv (fun m => shaped m = true)).
    - reflexivity.
    - intros mc new_configs. now apply update_config_keys_into_shaped. }
  apply shaped_spec in Hs as [Ha He]. split; intros k Hk.
  - split.
    + simpl in Hk. now destruct Hk as [<-|[<-|[<-|[]]]].
    + specialize (Ha k Hk). unfold holds_list in Ha.
      destruct (dget (KStr k) cfg) as [[]|]; try discriminate. eauto.
  - split.
    + simpl in Hk. now destruct Hk as [<-|[<-|[<-|[<-|[]]]]].
    + specialize (He k Hk). unfold holds_dict in He.
      destruct (dget (KStr k) cfg) as [[]|]; try discriminate. eauto.
Qed.

Lemma project_config_shape_witness :
  get_project_config postgres m1 (project_of "p" nested_tree)
  = Ok shaped_result
  /\ exists l, dget (KStr "tags") shaped_result = Some (VList l).
Proof.
  split; [reflexivity|].
  refine (proj2 (proj1 (project_config_shape postgres m1
                          (project_of "p" nested_tree) shaped_result _ _)
                   "tags" _)).
  - reflexivity.
  - reflexivity.
  - simpl. tauto.
Defined.

(** ** Precedence across scopes *)



(** ** AppendList fields across levels *)

Lemma py_in_app (x : value) (a b : list value) :
  py_in x (a ++ b) = py_in x a || py_in x b.
Proof. apply existsb_app. Qed.

Lemma nub_into_app (xs ys seen : list value) :
  nub_into seen (xs ++ ys) = nub_into (nub_into seen xs) ys.
Proof.
  revert seen. induction xs as [|x xs IH]; intros seen; simpl; trivial.
  destruct (py_in x seen); apply IH.
Qed.

(** For a level that does not repeat an item, filtering against the
    accumulator is first-occurrence de-duplication. *)
Lemma nub_into_filter (cur : list value) (xs : list value) :
  forall kept seen,
    (forall x, py_in x kept = true -> py_in x seen = true) ->
    distinct_from seen xs = true ->
    nub_into (cur ++ kept) xs
    = (cur ++ kept) ++ filter (fun f => negb (py_in f cur)) xs.
Proof.
  induction xs as [|x xs IH]; intros kept seen Hsub Hd; simpl.
  - now rewrite app_nil_r.
  - simpl in Hd. apply andb_true_iff in Hd as [Hx Hd].
    apply negb_true_iff in Hx.
    assert (Hk : py_in x kept = false).
    { destruct (py_in x kept) eqn:E; trivial.
      apply Hsub in E. congruence. }
    rewrite py_in_app, Hk, orb_false_r.
    destruct (py_in x cur) eqn:Ec; simpl.
    + apply (IH kept (seen ++ [x])); trivial.
      intros y Hy. rewrite py_in_app, (Hsub y Hy). reflexivity.
    + rewrite <- app_assoc.
      rewrite (IH (kept ++ [x]) (seen ++ [x])); trivial.
      * now rewrite <- !app_assoc.
      * intros y Hy. rewrite py_in_app in *.
        apply orb_true_iff in Hy as [Hy|Hy]; [|now rewrite Hy, orb_true_r].
        now rewrite (Hsub y Hy).
Qed.

Lemma nub_into_distinct_level (cur xs : list value) :
  distinct xs = true ->
  cur ++ filter (fun f => negb (py_in f cur)) xs = nub_into cur xs.
Proof.
  intros Hd. pose proof (nub_into_filter cur xs [] [] (fun x H => H) Hd) as H.
  now rewrite !app_nil_r in H.
Qed.

Lemma distinct_from_snoc (l : list value) (x : value) :
  forall seen,
    distinct_from seen (l ++ [x])
    = distinct_from seen l && negb (py_in x (seen ++ l)).
Proof.
  induction l as [|y l IH]; intros seen; simpl.
  - now rewrite app_nil_r, andb_true_r.
  - rewrite IH, <- app_assoc. simpl. now rewrite andb_assoc.
Qed.

Lemma distinct_nub_into (l seen : list value) :
  distinct seen = true -> distinct (nub_into seen l) = true.
Proof.
  revert seen. induction l as [|x l IH]; intros seen Hs; simpl; trivial.
  destruct (py_in x seen) eqn:E; [now apply IH|].
  apply IH. unfold distinct in *.
  now rewrite distinct_from_snoc, Hs, app_nil_l, E.
Qed.

Lemma for_keys_at (body : string -> stmt) (k : string) (keys : list string) :
  (forall k', writes_only (KStr k') (body k')) ->
  NoDup keys -> In k keys ->
  forall mc mc',
    for_keys body keys mc = (mc', None) ->
    exists m0 m1,
      dget (KStr k) m0 = dget (KStr k) mc /\
      body k m0 = (m1, None) /\
      dget (KStr k) mc' = dget (KStr k) m1.
Proof.
  intros Hw Hnd Hk.
  induction Hnd as [|k0 keys Hk0 Hnd IH]; [destruct Hk|].
  intros mc mc' H. simpl in H. apply seq_ok in H as [m1 [Hb Hrest]].
  destruct Hk as [->|Hk].
  - exists mc, m1. repeat split; trivial.
    replace mc' with (fst (for_keys body keys m1)) by now rewrite Hrest.
    apply for_keys_frame; trivial.
    destruct (mem k keys) eqn:E; trivial. apply mem_In in E. contradiction.
  - destruct (IH Hk m1 mc' Hrest) as [m0 [m2 [H0 [H1 H2]]]].
    exists m0, m2. repeat split; trivial.
    rewrite H0.
    replace m1 with (fst (body k0 mc)) by now rewrite Hb.
    apply (dget_frame k (KStr k0)); trivial.
    apply key_eqb_str_neq. intros ->. contradiction.
Qed.

Lemma level_items_relevant (self : ConfigUpdater) (k : string)
    (new_configs : value) (rel : dict) :
  In k AppendListFields ->
  relevant_of self new_configs = Ok rel ->
  _listify (get_default_value (KStr k) rel (VList []))
  = level_items k new_configs.
Proof.
  intros Hk Hrel.
  assert (Hm : mem k (ConfigKeys self) = true).
  { apply mem_In in Hk. now rewrite mem_ConfigKeys, Hk. }
  destruct new_configs as [| | | | | |d];
    try (simpl in Hrel; try discriminate;
         destruct (existsb _ _); try discriminate;
         inversion Hrel; reflexivity).
  unfold level_items, get_default_value.
  now rewrite (relevant_of_dget self d rel k Hrel), Hm.
Qed.

(** One level merge, seen at an AppendList key. *)
Lemma update_config_keys_into_append (self : ConfigUpdater) (k : string)
    (mc : dict) (new_configs : value) (mc' rel : dict) (cur : list value) :
  one_strategy self = true ->
  In k AppendListFields ->
  update_config_keys_into self mc new_configs = (mc', Ok rel) ->
  dget (KStr k) mc = Some (VList cur) ->
  dget (KStr k) mc'
  = Some (VList (cur ++ filter (fun f => negb (py_in f cur))
                          (level_items k new_configs))).
Proof.
  intros H1 Hk Hu Hcur.
  apply update_config_keys_into_ok in Hu as [Hrel [m1 [m2 [Ha [He Hc]]]]].
  assert (Hnd : NoDup AppendListFields).
  { repeat constructor; simpl; intuition discriminate. }
  destruct (for_keys_at _ k _ (append_field_writes rel) Hnd Hk _ _ Ha)
    as [m0 [m3 [H0 [Hb H3]]]].
  replace mc' with (fst (for_keys (clobber_field rel) (ClobberFields self) m2))
    by now rewrite Hc.
  rewrite for_keys_frame; [|apply clobber_field_writes|].
  2:{ destruct (mem k (ClobberFields self)) eqn:E; trivial.
      apply mem_In in E.
      destruct (clobber_not_accumulating self k H1 E) as [E' _].
      apply mem_In in Hk. congruence. }
  replace m2 with (fst (for_keys (extend_field rel) ExtendDictFields m1))
    by now rewrite He.
  rewrite for_keys_frame; [|apply extend_field_writes|].
  2:{ destruct (mem k ExtendDictFields) eqn:E; trivial.
      apply mem_In in E. now apply append_not_extend in Hk. }
  rewrite H3. unfold append_field in Hb.
  rewrite H0, Hcur in Hb. inversion Hb.
  rewrite dget_dset_same.
  now rewrite (level_items_relevant self k new_configs rel Hk Hrel).
Qed.

(** C4, as the code has it: through any sequence of level merges an
    AppendList key holds the accumulator's list followed, in order of
    first appearance, by the items not seen before, provided no level
    names an item twice; an item already in the accumulator is not
    appended again, and a list without repetition stays so. *)
Theorem append_list_first_appearance (self : ConfigUpdater) (k : string)
    (levels : list value) :
  forall (mc mc' : dict) (cur : list value),
    one_strategy self = true ->
    In k AppendListFields ->
    Forall (fun level => distinct (level_items k level) = true) levels ->
    dget (KStr k) mc = Some (VList cur) ->
    merge_levels self mc levels = Ok mc' ->
    dget (KStr k) mc'
    = Some (VList (nub_into cur (List.concat (map (level_items k) levels))))
    /\ (distinct cur = true ->
        distinct (nub_into cur (List.concat (map (level_items k) levels))) = true).
Proof.
  intros mc mc' cur H1 Hk Hall Hcur Hm.
  split; [|apply distinct_nub_into].
  revert mc cur Hcur Hm.
  induction Hall as [|level levels Hd Hall IH]; intros mc cur Hcur Hm.
  - simpl in *. inversion Hm; subst. exact Hcur.
  - simpl in Hm.
    destruct (update_config_keys_into self mc level) as [m1 [rel|e]] eqn:Eu;
      [|discriminate].
    pose proof (update_config_keys_into_append self k mc level m1 rel cur
                  H1 Hk Eu Hcur) as Hstep.
    rewrite (nub_into_distinct_level cur _ Hd) in Hstep.
    simpl. rewrite nub_into_app. now apply (IH m1).
Qed.

Lemma append_list_first_appearance_witness :
  exists mc',
    merge_levels postgres scaffold
      [VDict (str_dict [("tags", VList [VStr "a"; VStr "b"])]);
       VDict (str_dict [("tags", VList [VStr "b"; VStr "c"])])] = Ok mc'
    /\ dget (KStr "tags") mc' = Some (VList [VStr "a"; VStr "b"; VStr "c"]).
Proof.
  eexists. split; [reflexivity|].
  refine (proj1 (append_list_first_appearance postgres "tags"
                   [VDict (str_dict [("tags", VList [VStr "a"; VStr "b"])]);
                    VDict (str_dict [("tags", VList [VStr "b"; VStr "c"])])]
                   scaffold _ [] _ _ _ _ _)).
  - reflexivity.
  - simpl. tauto.
  - repeat constructor.
  - reflexivity.
  - reflexivity.
Defined.

(** C4 as stated fails: a level that names an item twice adds it
    twice, because the items are filtered against the accumulator as
    it was before the level. *)
Lemma append_list_repeats_within_level :
  exists cfg,
    get_project_config no_adapter {| fqn := []; resource_type := Model |}
      (project_of "p"
         (VDict (str_dict [("tags", VList [VStr "a"; VStr "a"])]))) = Ok cfg
    /\ dget (KStr "tags") cfg = Some (VList [VStr "a"; VStr "a"])
    /\ distinct [VStr "a"; VStr "a"] = false
    /\ nub [VStr "a"; VStr "a"] = [VStr "a"].
Proof.
  eexists. split; [reflexivity|]. repeat split.
Qed.

(** ** Values that are not dictionaries under ExtendDict keys *)

Lemma update_from_pairs_snd (items : list value) (d d' : dict) :
  snd (update_from_pairs d items) = snd (update_from_pairs d' items).
Proof.
  revert d d'. induction items as [|x items IH]; intros d d'; simpl; trivial.
  destruct (pair_of_item x) as [[k v]|e]; trivial.
Qed.

Lemma py_dict_update_snd (v : value) (d : dict) :
  snd (py_dict_update d v)
  = if update_rejects v then snd (py_dict_update [] v) else None.
Proof.
  unfold update_rejects.
  assert (E : snd (py_dict_update d v) = snd (py_dict_update [] v)).
  { unfold py_dict_update. destruct v; simpl; trivial;
      apply update_from_pairs_snd. }
  rewrite E. now destruct (snd (py_dict_update [] v)).
Qed.

Lemma py_dict_update_rejected (v : value) (d : dict) :
  update_rejects v = true ->
  exists d' e, py_dict_update d v = (d', Some e).
Proof.
  intros H. pose proof (py_dict_update_snd v d) as E. rewrite H in E.
  unfold update_rejects in H.
  destruct (py_dict_update d v) as [d' o]. simpl in E.
  destruct (snd (py_dict_update [] v)) as [e|]; [|discriminate].
  subst o. eauto.
Qed.

Lemma py_dict_update_accepted (v : value) (d : dict) :
  update_rejects v = false ->
  exists d', py_dict_update d v = (d', None).
Proof.
  intros H. pose proof (py_dict_update_snd v d) as E. rewrite H in E.
  destruct (py_dict_update d v) as [d' o]. simpl in E. subst o. eauto.
Qed.

Lemma holds_list_dset (k k' : string) (l : list value) (d : dict) :
  holds_list d k = true -> holds_list (dset (KStr k') (VList l) d) k = true.
Proof.
  unfold holds_list. rewrite dget_dset_str. now destruct (String.eqb k k').
Qed.

Lemma holds_dict_dset (k k' : string) (x d : dict) :
  holds_dict d k = true -> holds_dict (dset (KStr k') (VDict x) d) k = true.
Proof.
  unfold holds_dict. rewrite dget_dset_str. now destruct (String.eqb k k').
Qed.

(** The append loop does not raise on an accumulator that holds a list
    under each of its keys. *)
Lemma append_loop_ok (rel : dict) (keys : list string) :
  forall mc,
    (forall k, In k keys -> holds_list mc k = true) ->
    snd (for_keys (append_field rel) keys mc) = None.
Proof.
  induction keys as [|k0 keys IH]; intros mc H; simpl; trivial.
  unfold seq. unfold append_field at 1.
  pose proof (H k0 (or_introl eq_refl)) as H0. unfold holds_list in H0.
  destruct (dget (KStr k0) mc) as [[]|]; try discriminate.
  apply IH. intros k Hk. apply holds_list_dset. apply H. now right.
Qed.

(** The extend loop raises the compiler error for the first of its
    keys whose value [update] rejects. *)
Lemma extend_loop_raises (rel : dict) (keys : list string) :
  forall mc,
    (forall k, In k keys -> holds_dict mc k = true) ->
    (exists k, In k keys /\
               update_rejects
                 (get_default_value (KStr k) rel (VDict [])) = true) ->
    exists k',
      In k' keys /\
      update_rejects (get_default_value (KStr k') rel (VDict [])) = true /\
      snd (for_keys (extend_field rel) keys mc)
      = Some (raise_compiler_error (invalid_field_msg k')).
Proof.
  induction keys as [|k0 keys IH]; intros mc H [k [Hk Hr]]; [destruct Hk|].
  simpl. unfold seq. unfold extend_field at 1.
  pose proof (H k0 (or_introl eq_refl)) as H0. unfold holds_dict in H0.
  destruct (dget (KStr k0) mc) as [[| | | | | |cur]|]; try discriminate.
  destruct (update_rejects (get_default_value (KStr k0) rel (VDict [])))
    eqn:E0.
  - destruct (py_dict_update_rejected _ cur E0) as [d' [e Ed]].
    rewrite Ed. exists k0. repeat split; trivial. now left.
  - destruct (py_dict_update_accepted _ cur E0) as [d' Ed]. rewrite Ed.
    destruct Hk as [->|Hk]; [congruence|].
    destruct (IH (dset (KStr k0) (VDict d') mc)) as [k' [Hk' [Hr' He]]].
    + intros k1 Hk1. apply holds_dict_dset. apply H. now right.
    + eauto.
    + exists k'. repeat split; trivial. now right.
Qed.

Lemma update_into_item_raise (kv : key * value) (mc : dict) (e : exn) :
  snd (update_into_item kv mc) = Some e ->
  exists s, fst kv = KStr s /\ mem s ExtendDictFields = true /\
            e = raise_compiler_error (invalid_field_msg s).
Proof.
  unfold update_into_item.
  destruct (fst kv) as [| | |s|]; simpl; try discriminate.
  destruct (mem s AppendListFields); simpl; try discriminate.
  destruct (mem s ExtendDictFields) eqn:Em; simpl; try discriminate.
  destruct (get_default_value _ _ _); simpl;
    try (intros H; inversion H; now exists s).
  destruct (py_dict_update _ _) as [d' [e'|]]; simpl;
    try discriminate; intros H; inversion H; now exists s.
Qed.

Lemma extend_not_append (k : string) :
  mem k ExtendDictFields = true -> mem k AppendListFields = false.
Proof.
  intros H. destruct (mem k AppendListFields) eqn:E; trivial.
  apply mem_In in H, E. now apply append_not_extend in E.
Qed.

(** An ExtendDict key with a rejected value makes its iteration of
    [update_into] raise. *)
Lemma update_into_item_rejected (k : string) (v : value) (mc : dict) :
  mem k ExtendDictFields = true -> update_rejects v = true ->
  snd (update_into_item (KStr k, v) mc)
  = Some (raise_compiler_error (invalid_field_msg k)).
Proof.
  intros Hk Hr. unfold update_into_item. simpl fst. simpl snd. cbv iota.
  rewrite (extend_not_append k Hk), Hk.
  destruct (get_default_value (KStr k) mc (VDict [])); trivial.
  destruct (py_dict_update_rejected v d Hr) as [d' [e Ed]].
  now rewrite Ed.
Qed.

Lemma update_into_items_raises (k : string) (v : value)
    (items : list (key * value)) :
  mem k ExtendDictFields = true -> update_rejects v = true ->
  In (KStr k, v) items ->
  forall mc,
  exists k',
    mem k' ExtendDictFields = true /\
    (exists v', In (KStr k', v') items) /\
    snd (update_into_items items mc)
    = Some (raise_compiler_error (invalid_field_msg k')).
Proof.
  intros Hk Hr.
  induction items as [|kv items IH]; intros Hin mc; [destruct Hin|].
  simpl. unfold seq.
  destruct (update_into_item kv mc) as [m1 [e|]] eqn:E.
  - pose proof (update_into_item_raise kv mc e) as H.
    rewrite E in H. destruct (H eq_refl) as [s [Hs [Hm He]]].
    exists s. repeat split; trivial.
    + exists (snd kv). left. rewrite <- Hs. now destruct kv.
    + now rewrite He.
  - destruct Hin as [->|Hin].
    + pose proof (update_into_item_rejected k v mc Hk Hr) as H.
      rewrite E in H. discriminate.
    + destruct (IH Hin m1) as [k' [Hk' [[v' Hv'] He]]].
      exists k'. repeat split; trivial. exists v'. now right.
Qed.

Lemma scalars_rejected :
  update_rejects VNone = true /\
  (forall b, update_rejects (VBool b) = true) /\
  (forall n, update_rejects (VInt n) = true) /\
  update_rejects (VStr "table") = true /\
  update_rejects (VDict []) = false /\
  update_rejects (VList []) = false.
Proof. repeat split. Qed.

Lemma append_loop_shaped (rel : dict) (mc : dict) :
  shaped mc = true ->
  exists m1,
    for_keys (append_field rel) AppendListFields mc = (m1, None) /\
    shaped m1 = true.
Proof.
  intros Hs.
  pose proof (append_loop_ok rel AppendListFields mc) as Hok.
  assert (Hp : shaped (fst (for_keys (append_field rel) AppendListFields mc))
               = true).
  { apply (preserves_for_keys (fun m => shaped m = true)); trivial.
    intros k Hk m Hm. unfold append_field.
    destruct (dget (KStr k) m) as [[]|]; simpl; trivial.
    now apply shaped_dset_list. }
  destruct (for_keys (append_field rel) AppendListFields mc) as [m1 o].
  simpl in *. exists m1. split; trivial. f_equal. apply Hok.
  apply shaped_spec in Hs. apply Hs.
Qed.

(** Whatever the extend loop raises on an accumulator that holds a
    dictionary under each of its keys is the compiler error for one of
    them. *)
Lemma extend_loop_error (rel : dict) (keys : list string) :
  forall mc e,
    (forall k, In k keys -> holds_dict mc k = true) ->
    snd (for_keys (extend_field rel) keys mc) = Some e ->
    exists k', In k' keys /\ e = raise_compiler_error (invalid_field_msg k').
Proof.
  induction keys as [|k0 keys IH]; intros mc e H; [discriminate|].
  simpl. unfold seq. unfold extend_field at 1.
  pose proof (H k0 (or_introl eq_refl)) as H0. unfold holds_dict in H0.
  destruct (dget (KStr k0) mc) as [[| | | | | |cur]|]; try discriminate.
  destruct (py_dict_update cur _) as [d' [e'|]]; simpl.
  - intros He. inversion He. exists k0. split; trivial. now left.
  - intros He. destruct (IH (dset (KStr k0) (VDict d') mc) e) as [k' [Hk' E]];
      trivial.
    + intros k1 Hk1. apply holds_dict_dset. apply H. now right.
    + exists k'. split; trivial. now right.
Qed.

Lemma update_level_error (self : ConfigUpdater) (mc d : dict) (e : exn) :
  shaped mc = true ->
  snd (update_config_keys_into self mc (VDict d)) = Raise e ->
  exists k',
    In k' ExtendDictFields /\ e = raise_compiler_error (invalid_field_msg k').
Proof.
  intros Hs. unfold update_config_keys_into.
  destruct (relevant_of self (VDict d)) as [rel|e0] eqn:Hrel; [|discriminate].
  destruct (append_loop_shaped rel mc Hs) as [m1 [Ha Hs1]].
  unfold seq at 1. rewrite Ha. unfold seq at 1.
  pose proof (extend_loop_error rel ExtendDictFields m1) as He.
  destruct (for_keys (extend_field rel) ExtendDictFields m1) as [m2 [e2|]].
  - simpl. intros H. inversion H; subst. apply He; trivial.
    apply shaped_spec in Hs1. apply Hs1.
  - rewrite clobber_loop_fst. discriminate.
Qed.

Section RejectedOnPath.
Variable self : ConfigUpdater.
Variable k : string.
Variable v : value.
Variable d : dict.
Hypothesis Hone : one_strategy self = true.
Hypothesis Hk : In k ExtendDictFields.
Hypothesis Hr : update_rejects v = true.
Hypothesis Hv : dget (KStr k) d = Some v.

Lemma update_level_rejected (mc : dict) :
  shaped mc = true ->
  exists k' v',
    In k' ExtendDictFields /\
    dget (KStr k') d = Some v' /\
    update_rejects v' = true /\
    snd (update_config_keys_into self mc (VDict d))
    = Raise (raise_compiler_error (invalid_field_msg k')).
Proof.
  intros Hs.
  destruct (relevant_of self (VDict d)) as [rel|e] eqn:Hrel; [|discriminate].
  assert (Hget : forall s, In s ExtendDictFields ->
                           dget (KStr s) rel = dget (KStr s) d).
  { intros s Hs'. rewrite (relevant_of_dget self d rel s Hrel).
    apply mem_In in Hs'.
    now rewrite mem_ConfigKeys, Hs', orb_true_r. }
  destruct (append_loop_shaped rel mc Hs) as [m1 [Ha Hs1]].
  destruct (extend_loop_raises rel ExtendDictFields m1)
    as [k' [Hk' [Hr' He]]].
  - apply shaped_spec in Hs1. apply Hs1.
  - exists k. split; trivial.
    unfold get_default_value. now rewrite (Hget k Hk), Hv.
  - unfold get_default_value in Hr'. rewrite (Hget k' Hk') in Hr'.
    destruct (dget (KStr k') d) as [v'|] eqn:Ev'; [|discriminate].
    exists k', v'. repeat split; trivial.
    unfold update_config_keys_into. rewrite Hrel.
    unfold seq at 1. rewrite Ha. unfold seq at 1.
    destruct (for_keys (extend_field rel) ExtendDictFields m1) as [m2 o].
    simpl in He. now subst o.
Qed.

(** The walk raises when it enters a node that holds the rejected
    value, if it has not raised before. *)
Lemma walk_levels_rejected (rest : list string) (pre : list string) :
  forall config node,
    pre <> [] ->
    shaped config = true ->
    descend node pre = Some (VDict d) ->
    exists k',
      In k' ExtendDictFields /\
      walk_levels self (pre ++ rest) config node
      = Raise (raise_compiler_error (invalid_field_msg k')).
Proof.
  induction pre as [|p pre IH]; intros config node Hne Hs Hd; [congruence|].
  simpl in Hd. destruct node as [| | | | | |d0]; try discriminate.
  simpl. destruct (dget (KStr p) d0) as [child|]; [|discriminate].
  destruct child as [| | | | | |dc];
    try (destruct pre; discriminate).
  pose proof (update_config_keys_into_shaped self config (VDict dc) Hone Hs)
    as Hs1.
  pose proof (update_level_error self config dc) as Herr.
  destruct pre as [|p' pre].
  - simpl in Hd. inversion Hd; subst dc.
    destruct (update_level_rejected config Hs) as [k' [v' [Hk' [_ [_ He]]]]].
    destruct (update_config_keys_into self config (VDict d)) as [c1 r].
    simpl in He. subst r. exists k'. split; [exact Hk'|reflexivity].
  - destruct (update_config_keys_into self config (VDict dc))
      as [c1 [rel|e]] eqn:Eu.
    + rewrite (reapply_noop _ _ _ _ _ Eu).
      apply IH; trivial. discriminate.
    + destruct (Herr e Hs eq_refl) as [k' [Hk' ->]].
      exists k'. split; [exact Hk'|reflexivity].
Qed.

Lemma get_project_config_rejected (model : ModelParts) (project : Project)
    (pre rest : list string) :
  fqn model = pre ++ rest ->
  descend (select_configs model project) pre = Some (VDict d) ->
  exists k',
    In k' ExtendDictFields /\
    get_project_config self model project
    = Raise (raise_compiler_error (invalid_field_msg k')).
Proof.
  intros Hf Hd. unfold get_project_config. rewrite Hf.
  assert (Hs0 : shaped scaffold = true) by reflexivity.
  destruct pre as [|p pre].
  - simpl in Hd. inversion Hd as [Hsel]. rewrite Hsel.
    destruct (update_level_rejected scaffold Hs0) as [k' [v' [Hk' [_ [_ He]]]]].
    destruct (update_config_keys_into self scaffold (VDict d)) as [c1 r].
    simpl in He. subst r. exists k'. split; [exact Hk'|reflexivity].
  - destruct (select_configs model project) as [| | | | | |d0] eqn:Hsel;
      try discriminate.
    pose proof (update_config_keys_into_shaped self scaffold (VDict d0)
                  Hone Hs0) as Hs1.
    pose proof (update_level_error self scaffold d0) as Herr.
    destruct (update_config_keys_into self scaffold (VDict d0))
      as [c1 [rel|e]].
    + apply walk_levels_rejected; trivial. discriminate.
    + destruct (Herr e Hs0 eq_refl) as [k' [Hk' ->]].
      exists k'. split; [exact Hk'|reflexivity].
Qed.
End RejectedOnPath.

(** C5, as the code has it: when an ExtendDict key holds a value that
    [update] rejects (None, a boolean, a number, a non-empty string, a
    sequence with an item that is not a pair), the level merge into an
    accumulator of the walk and the in-model update raise the compiler
    error whose message is built from the name of an ExtendDict key of
    the input alone; in a level merge that key holds a rejected
    value.  [get_project_config] returns no configuration when a node
    on the walked path holds such a value: it raises the compiler
    error for an ExtendDict key. *)
Theorem extend_dict_rejected_value (self : ConfigUpdater) (k : string)
    (v : value) :
  In k ExtendDictFields ->
  update_rejects v = true ->
  (forall mc d,
      shaped mc = true ->
      dget (KStr k) d = Some v ->
      exists k' v',
        In k' ExtendDictFields /\
        dget (KStr k') d = Some v' /\
        update_rejects v' = true /\
        snd (update_config_keys_into self mc (VDict d))
        = Raise (raise_compiler_error (invalid_field_msg k')))
  /\
  (forall mc new_config,
      In (KStr k, v) new_config ->
      exists k' v',
        In k' ExtendDictFields /\
        In (KStr k', v') new_config /\
        snd (update_into self mc new_config)
        = Some (raise_compiler_error (invalid_field_msg k')))
  /\
  (forall model project pre rest d,
      one_strategy self = true ->
      fqn model = pre ++ rest ->
      descend (select_configs model project) pre = Some (VDict d) ->
      dget (KStr k) d = Some v ->
      exists k',
        In k' ExtendDictFields /\
        get_project_config self model project
        = Raise (raise_compiler_error (invalid_field_msg k'))).
Proof.
  intros Hk Hr. repeat split.
  - intros mc d Hs Hv.
    exact (update_level_rejected self k v d Hk Hr Hv mc Hs).
  - intros mc new_config Hin.
    destruct (update_into_items_raises k v new_config
                (proj2 (mem_In _ _) Hk) Hr Hin mc)
      as [k' [Hk' [[v' Hv'] He]]].
    exists k', v'. repeat split; trivial. now apply mem_In.
  - intros model project pre rest d H1 Hf Hd Hv.
    exact (get_project_config_rejected self k v d H1 Hk Hr Hv
             model project pre rest Hf Hd).
Qed.

Lemma extend_dict_rejected_value_witness :
  (exists k' v',
      In k' ExtendDictFields /\
      dget (KStr k') (str_dict [("materialized", VStr "table");
                                ("vars", VInt 5)]) = Some v' /\
      update_rejects v' = true /\
      snd (update_config_keys_into postgres scaffold
             (VDict (str_dict [("materialized", VStr "table");
                               ("vars", VInt 5)])))
      = Raise (raise_compiler_error (invalid_field_msg k')))
  /\
  (exists k' v',
      In k' ExtendDictFields /\
      In (KStr k', v') (str_dict [("alias", VStr "x"); ("vars", VInt 5)]) /\
      snd (update_into postgres [] (str_dict [("alias", VStr "x");
                                              ("vars", VInt 5)]))
      = Some (raise_compiler_error (invalid_field_msg k')))
  /\
  (exists k',
      In k' ExtendDictFields /\
      get_project_config postgres
        {| fqn := ["pkgA"; "m1"]; resource_type := Model |}
        (project_of "p" bad_vars_tree)
      = Raise (raise_compiler_error (invalid_field_msg k'))).
Proof.
  assert (Hk : In "vars" ExtendDictFields) by (simpl; tauto).
  assert (Hr : update_rejects (VInt 5) = true) by reflexivity.
  pose proof (extend_dict_rejected_value postgres "vars" (VInt 5) Hk Hr)
    as [Hlevel [Hinline Hwalk]].
  split; [|split].
  - apply (Hlevel scaffold); reflexivity.
  - apply (Hinline []). simpl. tauto.
  - apply (Hwalk {| fqn := ["pkgA"; "m1"]; resource_type := Model |}
             (project_of "p" bad_vars_tree) ["pkgA"] ["m1"]
             (str_dict [("vars", VInt 5)])); reflexivity.
Defined.

(** C5 as stated fails: the message names the key and nothing of the
    path where the value was found, and a value that is not a
    dictionary but that [update] accepts, such as an empty list,
    raises nothing. *)
Lemma error_message_without_path_segment :
  get_project_config no_adapter
    {| fqn := ["pkgA"; "m1"]; resource_type := Model |}
    (project_of "p" bad_vars_tree)
  = Raise (CompilationException (invalid_field_msg "vars"))
  /\ mentions "vars" (invalid_field_msg "vars") = true
  /\ mentions "pkgA" (invalid_field_msg "vars") = false
  /\ snd (update_config_keys_into no_adapter scaffold
            (VDict (str_dict [("vars", VList [])])))
     = Ok (str_dict [("vars", VList [])])
  /\ update_into no_adapter [] (str_dict [("vars", VList [])])
     = (str_dict [("vars", VDict [])], None).
Proof. repeat split. Qed.

(** ** Keys outside the field sets *)

Lemma key_eqb_KStr (s t : string) :
  key_eqb (KStr s) (KStr t) = String.eqb s t.
Proof. reflexivity. Qed.

Lemma mem_false_neq (s t : string) (l : list string) :
  mem s l = false -> In t l -> String.eqb s t = false.
Proof.
  intros Hm Hin. destruct (String.eqb s t) eqn:E; trivial.
  apply String.eqb_eq in E. subst t. apply mem_In in Hin. congruence.
Qed.

Lemma keyed_absent (fields : list string) (d : dict) (s : string) :
  keyed_in fields d -> mem s fields = false -> dget (KStr s) d = None.
Proof.
  intros [_ Hall] Hs. induction Hall as [|[k v] d Hk Hall IH]; trivial.
  simpl. destruct (key_eqb (KStr s) k) eqn:E; trivial.
  apply key_eqb_str_l in E. subst k. simpl in Hk. congruence.
Qed.

Lemma dget_none_unique (s : string) (d : dict) :
  dget (KStr s) d = None -> unique s d.
Proof.
  induction d as [|[k v] d IH]; simpl; trivial.
  destruct (key_eqb (KStr s) k); [discriminate|auto].
Qed.

Section Unrecognized.
Variable self : ConfigUpdater.
Variable s : string.
Hypothesis Hs : mem s (ConfigKeys self) = false.

Lemma unrecognized_not_in_sets :
  mem s AppendListFields = false /\ mem s ExtendDictFields = false /\
  mem s (ClobberFields self) = false /\ mem s DefaultClobberFields = false.
Proof.
  rewrite mem_ConfigKeys in Hs.
  apply orb_false_iff in Hs as [H1 Hc].
  apply orb_false_iff in H1 as [Ha He].
  repeat split; trivial.
  unfold ClobberFields in Hc. rewrite mem_union in Hc.
  now apply orb_false_iff in Hc as [Hd _].
Qed.

Lemma update_config_keys_into_unrecognized (mc : dict) (new_configs : value) :
  dget (KStr s) (fst (update_config_keys_into self mc new_configs))
  = dget (KStr s) mc.
Proof.
  destruct unrecognized_not_in_sets as [Ha [He [Hc _]]].
  apply (update_config_keys_into_preserves
           (fun m => dget (KStr s) m = dget (KStr s) mc)); trivial;
    intros rel k Hk m Hm; rewrite <- Hm; apply (dget_frame s (KStr k)).
  - apply append_field_writes.
  - rewrite key_eqb_KStr. exact (mem_false_neq _ _ _ Ha Hk).
  - apply extend_field_writes.
  - rewrite key_eqb_KStr. exact (mem_false_neq _ _ _ He Hk).
  - apply clobber_field_writes.
  - rewrite key_eqb_KStr. exact (mem_false_neq _ _ _ Hc Hk).
Qed.

Lemma update_into_items_unrecognized (items : list (key * value)) :
  forall mc,
    unique s items ->
    snd (update_into_items items mc) = None ->
    dget (KStr s) (fst (update_into_items items mc))
    = match dget (KStr s) items with
      | Some v => Some v
      | None => dget (KStr s) mc
      end.
Proof.
  destruct unrecognized_not_in_sets as [Ha [He _]].
  induction items as [|[k x] items IH]; intros mc Hu Hok; trivial.
  simpl in *. unfold seq in *.
  destruct (update_into_item (k, x) mc) as [m1 [e|]] eqn:Ei;
    [discriminate|].
  destruct (key_eqb (KStr s) k) eqn:E.
  - apply key_eqb_str_l in E. subst k.
    rewrite IH by (trivial; now apply dget_none_unique).
    rewrite Hu.
    unfold update_into_item in Ei. simpl in Ei. rewrite Ha, He in Ei.
    inversion Ei. apply dget_dset_same.
  - rewrite IH by trivial.
    replace m1 with (fst (update_into_item (k, x) mc)) by now rewrite Ei.
    now rewrite (dget_frame s k _ mc (update_into_item_writes (k, x)) E).
Qed.

Lemma get_default_unrecognized (r : SourceConfig) :
  dget (KStr s) (get_default r) = None.
Proof.
  destruct unrecognized_not_in_sets as [_ [_ [_ Hd]]].
  assert (H1 : String.eqb s "enabled" = false)
    by (apply (mem_false_neq _ _ _ Hd); simpl; tauto).
  assert (H2 : String.eqb s "materialized" = false)
    by (apply (mem_false_neq _ _ _ Hd); simpl; tauto).
  assert (H3 : String.eqb s "severity" = false)
    by (apply (mem_false_neq _ _ _ Hd); simpl; tauto).
  unfold get_default.
  destruct (resource_type (model r)); rewrite ?dget_dset; cbn [dget];
    now rewrite ?key_eqb_KStr, ?H1, ?H2, ?H3.
Qed.

Lemma scaffold_unrecognized : dget (KStr s) scaffold = None.
Proof.
  destruct unrecognized_not_in_sets as [Ha [He _]].
  change scaffold
    with (str_dict [("pre-hook", VList []); ("post-hook", VList []);
                    ("tags", VList []); ("vars", VDict []);
                    ("column_types", VDict []); ("quoting", VDict []);
                    ("persist_docs", VDict [])]).
  unfold str_dict. cbn [map fst snd dget]. rewrite !key_eqb_KStr.
  rewrite (mem_false_neq s "pre-hook" _ Ha) by (simpl; tauto).
  rewrite (mem_false_neq s "post-hook" _ Ha) by (simpl; tauto).
  rewrite (mem_false_neq s "tags" _ Ha) by (simpl; tauto).
  rewrite (mem_false_neq s "vars" _ He) by (simpl; tauto).
  rewrite (mem_false_neq s "column_types" _ He) by (simpl; tauto).
  rewrite (mem_false_neq s "quoting" _ He) by (simpl; tauto).
  rewrite (mem_false_neq s "persist_docs" _ He) by (simpl; tauto).
  reflexivity.
Qed.

Lemma get_project_config_unrecognized (model : ModelParts)
    (project : Project) (cfg : dict) :
  get_project_config self model project = Ok cfg ->
  dget (KStr s) cfg = None.
Proof.
  apply (get_project_config_inv (fun m => dget (KStr s) m = None)).
  - apply scaffold_unrecognized.
  - intros mc new_configs H.
    now rewrite update_config_keys_into_unrecognized.
Qed.

(** Merging configurations of which only [c] may have the key. *)
Lemma merge_unrecognized (pre post : list dict) (c : dict) :
  Forall (fun c' => dget (KStr s) c' = None) pre ->
  Forall (fun c' => dget (KStr s) c' = None) post ->
  unique s c ->
  dget (KStr s) (merge self (pre ++ c :: post)) = dget (KStr s) c.
Proof.
  intros Hpre Hpost Hu. unfold merge. rewrite fold_left_app. simpl.
  assert (Hm : unique s (fold_left (merge_step self) pre []))
    by now apply unique_merge_from.
  rewrite merge_from_absent by (trivial; now apply unique_merge_step).
  apply merge_step_fresh; trivial.
  now rewrite merge_from_absent.
Qed.
End Unrecognized.

(** C6, as the code has it: [update_config_keys_into] ignores a key
    that is in none of the field sets, in the accumulator and in the
    map it returns; [update_into] stores such a key like a clobber
    field, and [config] then returns it with the value the in-model
    configuration holds, and never from another source. *)
Theorem unrecognized_keys (self : SourceConfig) (s : string) :
  mem s (ConfigKeys (updater self)) = false ->
  (forall mc new_configs,
      dget (KStr s)
        (fst (update_config_keys_into (updater self) mc new_configs))
      = dget (KStr s) mc
      /\ forall rel,
          snd (update_config_keys_into (updater self) mc new_configs) = Ok rel ->
          dget (KStr s) rel = None)
  /\
  (forall mc new_config,
      dict_wf new_config = true ->
      snd (update_into (updater self) mc new_config) = None ->
      dget (KStr s) (fst (update_into (updater self) mc new_config))
      = match dget (KStr s) new_config with
        | Some v => Some v
        | None => dget (KStr s) mc
        end)
  /\
  (forall cfg,
      dict_wf (in_model_config self) = true ->
      config self = Ok cfg ->
      dget (KStr s) cfg = dget (KStr s) (in_model_config self)).
Proof.
  intros Hs. repeat split.
  - now apply update_config_keys_into_unrecognized.
  - intros rel Hrel.
    apply (keyed_absent (ConfigKeys (updater self))); trivial.
    apply (relevant_of_keyed (updater self) new_configs).
    unfold update_config_keys_into in Hrel.
    destruct (relevant_of (updater self) new_configs) as [r|e];
      [|discriminate].
    destruct (seq _ _ mc) as [m [e|]]; [discriminate|].
    simpl in Hrel. now inversion Hrel.
  - intros mc new_config Hwf Hok.
    apply update_into_items_unrecognized with (self := updater self);
      trivial.
    now apply dict_wf_unique.
  - intros cfg Hwf. unfold config.
    destruct (load_config_from_active_project self) as [a|e] eqn:Ea;
      [|discriminate].
    pose proof (get_default_unrecognized _ s Hs self) as Hd.
    pose proof (get_project_config_unrecognized _ s Hs _ _ _ Ea) as Hav.
    pose proof (dict_wf_unique s _ Hwf) as Hu.
    simpl.
    destruct (String.eqb _ _).
    + intros H. inversion H.
      apply (merge_unrecognized (updater self) s
               [get_default self; a] [] (in_model_config self)); auto.
    + destruct (load_config_from_own_project self) as [o|e] eqn:Eo;
        [|discriminate].
      pose proof (get_project_config_unrecognized _ s Hs _ _ _ Eo) as Hov.
      simpl. intros H. inversion H.
      apply (merge_unrecognized (updater self) s
               [get_default self; o] [a] (in_model_config self)); auto.
Qed.

Lemma unrecognized_keys_witness :
  exists cfg,
    config custom_key_resolver = Ok cfg /\
    dget (KStr "foo") cfg = Some (VInt 1).
Proof.
  eexists. split; [reflexivity|].
  refine (proj2 (proj2 (unrecognized_keys custom_key_resolver "foo" _))
            _ _ _); reflexivity.
Defined.

(** C6 as stated fails: [update_into] stores a key that is in no field
    set, and [config] returns it. *)
Lemma update_into_keeps_unrecognized_key :
  mem "foo" (ConfigKeys postgres) = false
  /\ update_into postgres [] (str_dict [("foo", VInt 1)])
     = (str_dict [("foo", VInt 1)], None)
  /\ (exists cfg,
         config custom_key_resolver = Ok cfg /\
         dget (KStr "foo") cfg = Some (VInt 1)).
Proof.
  split; [reflexivity|]. split; [reflexivity|].
  eexists. split; reflexivity.
Qed.

(** ** An error in the middle of an in-model update *)

Lemma update_into_items_app (pre rest : list (key * value)) :
  forall mc,
    snd (update_into_items pre mc) = None ->
    update_into_items (pre ++ rest) mc
    = update_into_items rest (fst (update_into_items pre mc)).
Proof.
  induction pre as [|kv pre IH]; intros mc H; trivial.
  simpl in *. unfold seq in *.
  destruct (update_into_item kv mc) as [m1 [e|]]; [discriminate|].
  now apply IH.
Qed.

(** C10: [update_in_model_config] is not atomic.  When the translated
    input holds, after the entries [pre], an ExtendDict key with a
    value that [update] rejects, the compiler error for that key is
    raised and the in-model configuration is left as the entries
    [pre] made it, up to the offending key itself; the entries after
    it are not applied. *)
Theorem update_in_model_config_not_atomic (self : SourceConfig)
    (cfg pre post : dict) (k : string) (v : value) :
  _translate_adapter_aliases self cfg = Ok (pre ++ (KStr k, v) :: post) ->
  mem k ExtendDictFields = true ->
  update_rejects v = true ->
  snd (update_into (updater self) (in_model_config self) pre) = None ->
  snd (update_in_model_config self cfg)
  = Some (raise_compiler_error (invalid_field_msg k))
  /\ forall s,
      s <> k ->
      dget (KStr s) (in_model_config (fst (update_in_model_config self cfg)))
      = dget (KStr s)
          (fst (update_into (updater self) (in_model_config self) pre)).
Proof.
  intros Ht Hk Hr Hpre. unfold update_in_model_config. rewrite Ht.
  unfold update_into in *. rewrite update_into_items_app by trivial.
  set (m1 := fst (update_into_items pre (in_model_config self))).
  simpl update_into_items. unfold seq.
  pose proof (update_into_item_rejected k v m1 Hk Hr) as He.
  pose proof (update_into_item_writes (KStr k, v)) as Hw.
  destruct (update_into_item (KStr k, v) m1) as [m2 o] eqn:Ei.
  simpl in He. subst o. simpl. split; trivial.
  intros s Hs.
  replace m2 with (fst (update_into_item (KStr k, v) m1)) by now rewrite Ei.
  apply (dget_frame s (KStr k)); trivial.
  now apply key_eqb_str_neq.
Qed.

Lemma update_in_model_config_not_atomic_witness :
  snd (update_in_model_config fresh_resolver
         (str_dict [("alias", VStr "x"); ("vars", VInt 5);
                    ("schema", VStr "s")]))
  = Some (raise_compiler_error (invalid_field_msg "vars"))
  /\ dget (KStr "alias")
       (in_model_config
          (fst (update_in_model_config fresh_resolver
                  (str_dict [("alias", VStr "x"); ("vars", VInt 5);
                             ("schema", VStr "s")]))))
     = Some (VStr "x")
  /\ in_model_config fresh_resolver = [].
Proof.
  pose proof (update_in_model_config_not_atomic fresh_resolver
                (str_dict [("alias", VStr "x"); ("vars", VInt 5);
                           ("schema", VStr "s")])
                (str_dict [("alias", VStr "x")])
                (str_dict [("schema", VStr "s")])
                "vars" (VInt 5)
                eq_refl eq_refl eq_refl eq_refl) as [He Hd].
  split; [exact He|]. split; [|reflexivity].
  apply (Hd "alias"). discriminate.
Defined.


(** * Further properties of the module *)

(** ** get_project_vars *)

Lemma clobber_loop_empty (keys : list string) (mc : dict) :
  for_keys (clobber_field []) keys mc = (mc, None).
Proof.
  induction keys as [|k keys IH]; simpl; trivial.
Qed.

(** X1: [get_project_vars] never returns a configuration.  Its
    accumulator starts empty, so the first AppendList key is missing
    when the level merge indexes it: the call raises KeyError for
    every dictionary, and KeyError or TypeError for any other
    argument. *)
Theorem get_project_vars_always_raises (self : ConfigUpdater) :
  (forall d, get_project_vars self (VDict d) = Raise KeyError) /\
  (forall project_vars,
      get_project_vars self project_vars = Raise KeyError \/
      get_project_vars self project_vars = Raise TypeError).
Proof.
  assert (Hd : forall v rel,
             relevant_of self v = Ok rel ->
             get_project_vars self v = Raise KeyError).
  { intros v rel Hrel. unfold get_project_vars, update_config_keys_into.
    rewrite Hrel. reflexivity. }
  split.
  - intros d. now apply (Hd (VDict d) _ eq_refl).
  - intros v. destruct (relevant_of self v) as [rel|e] eqn:Hrel.
    + left. now apply (Hd v rel).
    + right. unfold get_project_vars, update_config_keys_into.
      rewrite Hrel.
      destruct v as [| | | | | |d]; simpl in Hrel; try discriminate;
        try (inversion Hrel; reflexivity);
        destruct (existsb _ _); try discriminate;
        inversion Hrel; reflexivity.
Qed.

(** ** The walk on empty and on well-formed trees *)

Lemma update_level_empty (self : ConfigUpdater) :
  update_config_keys_into self scaffold (VDict []) = (scaffold, Ok []).
Proof.
  unfold update_config_keys_into. simpl relevant_of. unfold seq.
  assert (Ha : for_keys (append_field []) AppendListFields scaffold
               = (scaffold, None)) by reflexivity.
  assert (He : for_keys (extend_field []) ExtendDictFields scaffold
               = (scaffold, None)) by reflexivity.
  now rewrite Ha, He, clobber_loop_empty.
Qed.

(** X2: a project that has no settings for the kind of the resource,
    the field being None or the empty dictionary, gives every
    resource the scaffold: an empty list under each AppendList key,
    an empty dictionary under each ExtendDict key, and nothing
    else. *)
Theorem get_project_config_without_settings (self : ConfigUpdater)
    (model : ModelParts) (project : Project) :
  select_configs model project = VNone \/
  select_configs model project = VDict [] ->
  get_project_config self model project = Ok scaffold.
Proof.
  intros [H|H]; unfold get_project_config; rewrite H; trivial.
  rewrite update_level_empty. now destruct (fqn model).
Qed.

Lemma get_project_config_without_settings_witness :
  get_project_config postgres m1 (project_of "p" (VDict [])) = Ok scaffold
  /\ get_project_config postgres
       {| fqn := ["pkgA"; "s1"]; resource_type := Seed |}
       (project_of "p" nested_tree) = Ok scaffold.
Proof.
  split; apply get_project_config_without_settings.
  - right. reflexivity.
  - left. reflexivity.
Defined.

Lemma extend_loop_ok (rel : dict) (keys : list string) :
  forall mc,
    (forall k, In k keys -> holds_dict mc k = true) ->
    (forall k, In k keys ->
               update_rejects
                 (get_default_value (KStr k) rel (VDict [])) = false) ->
    snd (for_keys (extend_field rel) keys mc) = None.
Proof.
  induction keys as [|k0 keys IH]; intros mc H Hr; simpl; trivial.
  unfold seq. unfold extend_field at 1.
  pose proof (H k0 (or_introl eq_refl)) as H0. unfold holds_dict in H0.
  destruct (dget (KStr k0) mc) as [[| | | | | |cur]|]; try discriminate.
  destruct (py_dict_update_accepted _ cur (Hr k0 (or_introl eq_refl)))
    as [d' Ed].
  rewrite Ed. apply IH.
  - intros k Hk. apply holds_dict_dset. apply H. now right.
  - intros k Hk. apply Hr. now right.
Qed.

(** A level merge of an accepted node into an accumulator of the walk
    succeeds. *)
Lemma update_level_ok (self : ConfigUpdater) (mc d : dict) :
  shaped mc = true -> node_ok (VDict d) = true ->
  exists mc' rel, update_config_keys_into self mc (VDict d) = (mc', Ok rel).
Proof.
  intros Hs Hn. unfold update_config_keys_into.
  destruct (relevant_of self (VDict d)) as [rel|e] eqn:Hrel; [|discriminate].
  destruct (append_loop_shaped rel mc Hs) as [m1 [Ha Hs1]].
  unfold seq at 1. rewrite Ha. unfold seq at 1.
  pose proof (extend_loop_ok rel ExtendDictFields m1) as He.
  destruct (for_keys (extend_field rel) ExtendDictFields m1) as [m2 o].
  simpl in He. rewrite He.
  - rewrite clobber_loop_fst. eauto.
  - apply shaped_spec in Hs1. apply Hs1.
  - intros k Hk. unfold node_ok in Hn. rewrite forallb_forall in Hn.
    specialize (Hn k Hk). apply negb_true_iff in Hn.
    unfold get_default_value in *.
    rewrite (relevant_of_dget self d rel k Hrel).
    apply (proj2 (mem_In k ExtendDictFields)) in Hk.
    now rewrite mem_ConfigKeys, Hk, orb_true_r.
Qed.

Lemma walk_levels_ok (self : ConfigUpdater) (levels : list string) :
  one_strategy self = true ->
  forall config node,
    shaped config = true ->
    path_ok node levels = true ->
    exists cfg, walk_levels self levels config node = Ok cfg.
Proof.
  intros H1.
  induction levels as [|level rest IH]; intros config node Hs Hp.
  - simpl. eauto.
  - simpl in Hp. apply andb_true_iff in Hp as [Hn Hp].
    destruct node as [| | | | | |d]; try discriminate.
    simpl. destruct (dget (KStr level) d) as [child|]; [|eauto].
    destruct child as [| | | | | |dc];
      try (destruct rest; simpl in Hp; discriminate); [eauto|].
    assert (Hc : node_ok (VDict dc) = true).
    { destruct rest; simpl in Hp; now apply andb_true_iff in Hp as [Hc _]. }
    destruct (update_level_ok self config dc Hs Hc) as [c1 [rel Eu]].
    pose proof (update_config_keys_into_shaped self config (VDict dc) H1 Hs)
      as Hs1.
    rewrite Eu in *. rewrite (reapply_noop _ _ _ _ _ Eu).
    now apply IH.
Qed.

(** X3: [get_project_config] returns a configuration, and raises
    nothing, when every key has one strategy and the field of the
    kind is None or every node the walk enters is a dictionary whose
    values under the ExtendDict keys are accepted by [update]. *)
Theorem get_project_config_succeeds (self : ConfigUpdater)
    (model : ModelParts) (project : Project) :
  one_strategy self = true ->
  select_configs model project = VNone \/
  path_ok (select_configs model project) (fqn model) = true ->
  exists cfg, get_project_config self model project = Ok cfg.
Proof.
  intros H1 [H|H]; unfold get_project_config.
  - rewrite H. eauto.
  - assert (Hn : node_ok (select_configs model project) = true).
    { destruct (fqn model); simpl in H;
        now apply andb_true_iff in H as [Hn _]. }
    destruct (select_configs model project) as [| | | | | |d];
      try discriminate.
    assert (Hs0 : shaped scaffold = true) by reflexivity.
    destruct (update_level_ok self scaffold d Hs0 Hn) as [c1 [rel Eu]].
    pose proof (update_config_keys_into_shaped self scaffold (VDict d) H1 Hs0)
      as Hs1.
    rewrite Eu in *. now apply walk_levels_ok.
Qed.

Lemma get_project_config_succeeds_witness :
  exists cfg, get_project_config postgres m1 (project_of "p" nested_tree)
              = Ok cfg.
Proof.
  apply get_project_config_succeeds.
  - reflexivity.
  - right. reflexivity.
Defined.

(** ** The keys of a project configuration *)

Lemma field_in_ConfigKeys (self : ConfigUpdater) (k : string) :
  In k AppendListFields \/ In k ExtendDictFields \/
  In k (ClobberFields self) ->
  in_fields (KStr k) (ConfigKeys self) = true.
Proof.
  cbn [in_fields]. rewrite mem_ConfigKeys.
  intros [H|[H|H]]; apply mem_In in H; rewrite H;
    now rewrite ?orb_true_r.
Qed.

(** X4: every key of a configuration that [get_project_config]
    returns is the name of an AppendList, ExtendDict or clobber
    field, whatever keys the project tree holds. *)
Theorem get_project_config_keys_recognized (self : ConfigUpdater)
    (model : ModelParts) (project : Project) (cfg : dict) :
  get_project_config self model project = Ok cfg ->
  Forall (fun kv => in_fields (fst kv) (ConfigKeys self) = true) cfg.
Proof.
  apply (get_project_config_inv
           (fun m => Forall (fun kv => in_fields (fst kv) (ConfigKeys self)
                                       = true) m)).
  - unfold scaffold, AppendListFields, ExtendDictFields. cbn [fold_left].
    repeat (apply (Forall_keys_dset
                     (fun k => in_fields k (ConfigKeys self) = true));
            [apply field_in_ConfigKeys; simpl; tauto|]).
    constructor.
  - intros mc new_configs.
    apply update_config_keys_into_preserves; intros rel k Hk;
      [apply (writes_only_preserves _ _ _ (append_field_writes rel k))
      |apply (writes_only_preserves _ _ _ (extend_field_writes rel k))
      |apply (writes_only_preserves _ _ _ (clobber_field_writes rel k))];
      intros v m Hm;
      apply (Forall_keys_dset
               (fun k => in_fields k (ConfigKeys self) = true)); trivial;
      apply field_in_ConfigKeys; tauto.
Qed.

Lemma get_project_config_keys_recognized_witness :
  Forall (fun kv => in_fields (fst kv) (ConfigKeys postgres) = true)
    shaped_result.
Proof.
  apply (get_project_config_keys_recognized postgres m1
           (project_of "p" nested_tree)).
  reflexivity.
Defined.

(** ** One level merge, key by key *)

(** X5: the map [update_config_keys_into] returns for a dictionary is
    the part of it under the recognized keys: a recognized key has
    the value the input gives it, any other key is left out, and no
    key occurs twice. *)
Theorem update_config_keys_into_returns_recognized (self : ConfigUpdater)
    (mc d mc' rel : dict) :
  update_config_keys_into self mc (VDict d) = (mc', Ok rel) ->
  (forall s, dget (KStr s) rel
             = if mem s (ConfigKeys self) then dget (KStr s) d else None)
  /\ NoDup (map fst rel)
  /\ Forall (fun kv => in_fields (fst kv) (ConfigKeys self) = true) rel.
Proof.
  intros H. apply update_config_keys_into_ok in H as [Hrel _].
  split; [|exact (relevant_of_keyed _ _ _ Hrel)].
  intros s. now apply relevant_of_dget.
Qed.

Lemma update_config_keys_into_returns_recognized_witness :
  (forall s,
      dget (KStr s) (str_dict [("materialized", VStr "table")])
      = if mem s (ConfigKeys postgres)
        then dget (KStr s) (str_dict [("materialized", VStr "table");
                                      ("custom", VInt 1)])
        else None)
  /\ NoDup (map fst (str_dict [("materialized", VStr "table")]))
  /\ Forall (fun kv => in_fields (fst kv) (ConfigKeys postgres) = true)
       (str_dict [("materialized", VStr "table")]).
Proof.
  apply (update_config_keys_into_returns_recognized postgres scaffold
           (str_dict [("materialized", VStr "table"); ("custom", VInt 1)])
           (dset (KStr "materialized") (VStr "table") scaffold)).
  reflexivity.
Defined.

Lemma clobber_loop_absent (rel : dict) (s : string) (keys : list string)
    (mc : dict) :
  dget (KStr s) rel = None ->
  dget (KStr s) (fst (for_keys (clobber_field rel) keys mc))
  = dget (KStr s) mc.
Proof.
  intros Hn.
  apply (preserves_for_keys (fun m => dget (KStr s) m = dget (KStr s) mc));
    trivial.
  intros k _ m Hm. rewrite <- Hm. unfold clobber_field.
  destruct (dget (KStr k) rel) as [v|] eqn:Ek; simpl; trivial.
  rewrite dget_dset_str.
  destruct (String.eqb s k) eqn:E; trivial.
  apply String.eqb_eq in E. subst k. congruence.
Qed.

(** The accumulator after a level merge, at a key that is neither an
    AppendList nor an ExtendDict field. *)
Lemma update_level_other (self : ConfigUpdater) (s : string)
    (mc : dict) (new_configs : value) (mc' rel : dict) :
  mem s AppendListFields = false -> mem s ExtendDictFields = false ->
  update_config_keys_into self mc new_configs = (mc', Ok rel) ->
  dget (KStr s) mc'
  = match dget (KStr s) rel with
    | Some v => Some v
    | None => dget (KStr s) mc
    end.
Proof.
  intros Ha He Hu.
  pose proof (update_config_keys_into_ok _ _ _ _ _ Hu)
    as [Hrel [m1 [m2 [Hla [Hle Hlc]]]]].
  replace mc' with (fst (for_keys (clobber_field rel) (ClobberFields self) m2))
    by now rewrite Hlc.
  assert (Hm2 : dget (KStr s) m2 = dget (KStr s) mc).
  { replace m2 with (fst (for_keys (extend_field rel) ExtendDictFields m1))
      by now rewrite Hle.
    rewrite for_keys_frame by (trivial; apply extend_field_writes).
    replace m1 with (fst (for_keys (append_field rel) AppendListFields mc))
      by now rewrite Hla.
    apply for_keys_frame; trivial. apply append_field_writes. }
  destruct (dget (KStr s) rel) as [v|] eqn:Ev.
  - apply clobber_loop_sets; trivial.
    pose proof (relevant_of_keyed _ _ _ Hrel) as Hk.
    destruct (mem s (ConfigKeys self)) eqn:Ec.
    + now rewrite mem_ConfigKeys, Ha, He in Ec.
    + rewrite (keyed_absent _ _ _ Hk Ec) in Ev. discriminate.
  - now rewrite clobber_loop_absent.
Qed.

(** X6: a level merge replaces the value of a clobber field the level
    has and leaves alone a clobber field the level does not have;
    a key that is in no field set is never touched.  This holds at
    every key that is neither an AppendList nor an ExtendDict
    field. *)
Theorem level_merge_clobber (self : ConfigUpdater) (s : string)
    (mc d mc' rel : dict) :
  mem s AppendListFields = false ->
  mem s ExtendDictFields = false ->
  update_config_keys_into self mc (VDict d) = (mc', Ok rel) ->
  dget (KStr s) mc'
  = if mem s (ClobberFields self)
    then match dget (KStr s) d with
         | Some v => Some v
         | None => dget (KStr s) mc
         end
    else dget (KStr s) mc.
Proof.
  intros Ha He Hu.
  rewrite (update_level_other self s mc (VDict d) mc' rel Ha He Hu).
  apply update_config_keys_into_ok in Hu as [Hrel _].
  rewrite (relevant_of_dget self d rel s Hrel), mem_ConfigKeys, Ha, He.
  simpl. now destruct (mem s (ClobberFields self)).
Qed.

Lemma level_merge_clobber_witness :
  dget (KStr "sort")
    (dset (KStr "sort") (VStr "id")
       (dset (KStr "materialized") (VStr "table") scaffold))
  = Some (VStr "id").
Proof.
  exact (level_merge_clobber postgres "sort"
           (dset (KStr "materialized") (VStr "table") scaffold)
           (str_dict [("sort", VStr "id"); ("custom", VInt 1)])
           (dset (KStr "sort") (VStr "id")
              (dset (KStr "materialized") (VStr "table") scaffold))
           (str_dict [("sort", VStr "id")])
           eq_refl eq_refl eq_refl).
Defined.

(** X7: a level merge shallow-merges the dictionary a level gives for
    an ExtendDict key into the one the accumulator holds: the entries
    of the level are stored over those of the accumulator, so that an
    inner key has the level's value when the level has it and keeps
    the accumulator's value otherwise; a level without the key leaves
    the dictionary as it is. *)
Theorem level_merge_extend (self : ConfigUpdater) (k : string)
    (mc d mc' rel d1 : dict) :
  one_strategy self = true ->
  In k ExtendDictFields ->
  dget (KStr k) mc = Some (VDict d1) ->
  update_config_keys_into self mc (VDict d) = (mc', Ok rel) ->
  (dget (KStr k) d = None -> dget (KStr k) mc' = Some (VDict d1))
  /\ (forall d2,
         dget (KStr k) d = Some (VDict d2) ->
         dget (KStr k) mc' = Some (VDict (dict_update d1 d2))
         /\ forall j,
             dict_wf d2 = true ->
             dget (KStr j) (dict_update d1 d2)
             = match dget (KStr j) d2 with
               | Some x => Some x
               | None => dget (KStr j) d1
               end).
Proof.
  intros H1 Hk Hcur Hu.
  pose proof (update_config_keys_into_ok _ _ _ _ _ Hu)
    as [Hrel [m1 [m2 [Hla [Hle Hlc]]]]].
  assert (Hnd : NoDup ExtendDictFields).
  { repeat constructor; simpl; intuition discriminate. }
  destruct (for_keys_at _ k _ (extend_field_writes rel) Hnd Hk _ _ Hle)
    as [m0 [m3 [H0 [Hb H3]]]].
  assert (Hm1 : dget (KStr k) m1 = Some (VDict d1)).
  { rewrite <- Hcur.
    replace m1 with (fst (for_keys (append_field rel) AppendListFields mc))
      by now rewrite Hla.
    apply for_keys_frame; [apply append_field_writes|].
    apply extend_not_append. now apply mem_In. }
  assert (Hmc' : dget (KStr k) mc' = dget (KStr k) m3).
  { rewrite <- H3.
    replace mc'
      with (fst (for_keys (clobber_field rel) (ClobberFields self) m2))
      by now rewrite Hlc.
    apply for_keys_frame; [apply clobber_field_writes|].
    destruct (mem k (ClobberFields self)) eqn:E; trivial.
    apply mem_In in E.
    destruct (clobber_not_accumulating self k H1 E) as [_ E'].
    apply mem_In in Hk. congruence. }
  assert (Hget : dget (KStr k) rel = dget (KStr k) d).
  { rewrite (relevant_of_dget self d rel k Hrel).
    apply mem_In in Hk. now rewrite mem_ConfigKeys, Hk, orb_true_r. }
  unfold extend_field, get_default_value in Hb.
  rewrite H0, Hm1, Hget in Hb.
  split.
  - intros Hn. rewrite Hn in Hb. simpl in Hb. inversion Hb; subst m3.
    now rewrite Hmc', dget_dset_same.
  - intros d2 Hd2. rewrite Hd2 in Hb. simpl in Hb. inversion Hb; subst m3.
    split; [now rewrite Hmc', dget_dset_same|].
    intros j Hwf. apply dget_dict_update. now apply dict_wf_unique.
Qed.

Lemma level_merge_extend_witness :
  dget (KStr "vars")
    (dset (KStr "vars") (VDict (str_dict [("x", VInt 1); ("y", VInt 2)]))
       scaffold)
  = Some (VDict (dict_update [] (str_dict [("x", VInt 1); ("y", VInt 2)]))).
Proof.
  refine (proj1 (proj2 (level_merge_extend postgres "vars" scaffold
                          (str_dict [("vars",
                                      VDict (str_dict [("x", VInt 1);
                                                       ("y", VInt 2)]))])
                          _ _ [] _ _ _ _) _ _)).
  - reflexivity.
  - simpl. tauto.
  - reflexivity.
  - reflexivity.
  - reflexivity.
Defined.

(** ** The innermost level *)

Lemma update_level_sets_clobber (self : ConfigUpdater) (k : string)
    (v : value) (mc d mc' rel : dict) :
  mem k (ClobberFields self) = true ->
  dget (KStr k) d = Some v ->
  update_config_keys_into self mc (VDict d) = (mc', Ok rel) ->
  dget (KStr k) mc' = Some v.
Proof.
  intros Hk Hv Hu.
  apply update_config_keys_into_ok in Hu
    as [Hrel [m1 [m2 [_ [_ Hlc]]]]].
  replace mc' with (fst (for_keys (clobber_field rel) (ClobberFields self) m2))
    by now rewrite Hlc.
  apply clobber_loop_sets; trivial.
  rewrite (relevant_of_dget self d rel k Hrel), mem_ConfigKeys, Hk.
  now rewrite orb_true_r.
Qed.

Lemma walk_levels_innermost (self : ConfigUpdater) (k : string) (v : value)
    (d cfg : dict) (levels : list string) :
  mem k (ClobberFields self) = true ->
  dget (KStr k) d = Some v ->
  forall config node,
    levels <> [] ->
    descend node levels = Some (VDict d) ->
    walk_levels self levels config node = Ok cfg ->
    dget (KStr k) cfg = Some v.
Proof.
  intros Hk Hv.
  induction levels as [|level rest IH]; intros config node Hne Hd Hw;
    [congruence|].
  simpl in Hd. destruct node as [| | | | | |d0]; try discriminate.
  simpl in Hw. destruct (dget (KStr level) d0) as [child|]; [|discriminate].
  destruct child as [| | | | | |dc]; try (destruct rest; discriminate).
  destruct (update_config_keys_into self config (VDict dc))
    as [c1 [rel|e]] eqn:Eu; [|discriminate].
  rewrite (reapply_noop _ _ _ _ _ Eu) in Hw.
  destruct rest as [|l2 rest].
  - simpl in Hd, Hw. inversion Hd; subst dc. inversion Hw; subst cfg.
    exact (update_level_sets_clobber self k v config d c1 rel Hk Hv Eu).
  - apply (IH c1 (VDict dc)); trivial. discriminate.
Qed.

(** X8: the innermost level wins for a clobber field: when every
    segment of the path has a node and the node of the last segment
    sets the field, the configuration [get_project_config] returns
    holds that value, whatever the levels above set. *)
Theorem get_project_config_innermost_clobber (self : ConfigUpdater)
    (model : ModelParts) (project : Project) (k : string) (v : value)
    (d cfg : dict) :
  mem k (ClobberFields self) = true ->
  descend (select_configs model project) (fqn model) = Some (VDict d) ->
  dget (KStr k) d = Some v ->
  get_project_config self model project = Ok cfg ->
  dget (KStr k) cfg = Some v.
Proof.
  intros Hk Hd Hv. unfold get_project_config.
  destruct (fqn model) as [|level rest] eqn:Hf.
  - simpl in Hd. inversion Hd as [Hs]. rewrite Hs.
    destruct (update_config_keys_into self scaffold (VDict d))
      as [c1 [rel|e]] eqn:Eu; [|discriminate].
    simpl. intros H. inversion H; subst cfg.
    exact (update_level_sets_clobber self k v scaffold d c1 rel Hk Hv Eu).
  - destruct (select_configs model project) as [| | | | | |d0];
      try discriminate.
    destruct (update_config_keys_into self scaffold (VDict d0))
      as [c1 [rel|e]]; [|discriminate].
    apply (walk_levels_innermost self k v d cfg (level :: rest) Hk Hv);
      trivial. discriminate.
Qed.

Lemma get_project_config_innermost_clobber_witness :
  dget (KStr "materialized") shaped_result = Some (VStr "incremental").
Proof.
  apply (get_project_config_innermost_clobber postgres m1
           (project_of "p" nested_tree) "materialized" (VStr "incremental")
           (str_dict [("materialized", VStr "incremental")])); reflexivity.
Defined.

(** ** update_into, key by key *)

Lemma preserves_update_into_items (P : dict -> Prop)
    (items : list (key * value)) :
  (forall k v mc, P mc -> P (dset k v mc)) ->
  preserves P (update_into_items items).
Proof.
  intros Hd. induction items as [|kv items IH]; simpl.
  - now intros mc HP.
  - apply preserves_seq; trivial.
    apply (writes_only_preserves P (fst kv)); [|apply Hd].
    apply update_into_item_writes.
Qed.

Lemma update_into_items_absent (s : string) (items : list (key * value)) :
  forall mc,
    dget (KStr s) items = None ->
    dget (KStr s) (fst (update_into_items items mc)) = dget (KStr s) mc.
Proof.
  induction items as [|[k x] items IH]; intros mc Hn; trivial.
  simpl in Hn. destruct (key_eqb (KStr s) k) eqn:E; [discriminate|].
  simpl. unfold seq.
  pose proof (dget_frame s k _ mc (update_into_item_writes (k, x)) E) as Hf.
  destruct (update_into_item (k, x) mc) as [m1 [e|]]; simpl in *; trivial.
  now rewrite IH.
Qed.

(** What an iteration stores under its key depends on the dictionary
    only through the value under that key. *)
Lemma update_into_item_at_key (s : string) (v : value) (m m' : dict) :
  dget (KStr s) m = dget (KStr s) m' ->
  dget (KStr s) (fst (update_into_item (KStr s, v) m))
  = dget (KStr s) (fst (update_into_item (KStr s, v) m')).
Proof.
  intros H. unfold update_into_item, get_default_value. simpl fst. simpl snd.
  cbv iota. rewrite <- H.
  destruct (mem s AppendListFields);
    [simpl; now rewrite !dget_dset_same|].
  destruct (mem s ExtendDictFields);
    [|simpl; now rewrite !dget_dset_same].
  destruct (dget (KStr s) m) as [[| | | | | |cur]|] eqn:Em; simpl;
    try congruence.
  - destruct (py_dict_update cur v) as [d' [e|]]; simpl;
      now rewrite !dget_dset_same.
  - destruct (py_dict_update [] v) as [d' [e|]]; simpl;
      [congruence|now rewrite !dget_dset_same].
Qed.

Lemma update_into_items_at (s : string) (items : list (key * value)) :
  forall mc,
    unique s items ->
    snd (update_into_items items mc) = None ->
    dget (KStr s) (fst (update_into_items items mc))
    = match dget (KStr s) items with
      | Some v => dget (KStr s) (fst (update_into_item (KStr s, v) mc))
      | None => dget (KStr s) mc
      end.
Proof.
  induction items as [|[k x] items IH]; intros mc Hu Hok; trivial.
  simpl in *. unfold seq in *.
  destruct (update_into_item (k, x) mc) as [m1 [e|]] eqn:Ei;
    [discriminate|].
  destruct (key_eqb (KStr s) k) eqn:E.
  - apply key_eqb_str_l in E. subst k.
    rewrite update_into_items_absent by trivial. now rewrite Ei.
  - rewrite IH by trivial.
    assert (Hf : dget (KStr s) m1 = dget (KStr s) mc).
    { replace m1 with (fst (update_into_item (k, x) mc)) by now rewrite Ei.
      exact (dget_frame s k _ mc (update_into_item_writes (k, x)) E). }
    destruct (dget (KStr s) items) as [v|]; trivial.
    now apply update_into_item_at_key.
Qed.

(** X9: [update_into] raises nothing but the compiler error for an
    ExtendDict key of its input: an input without ExtendDict keys is
    always applied in full. *)
Theorem update_into_raises_only_for_extend_dict (self : ConfigUpdater)
    (mc new_config : dict) (e : exn) :
  snd (update_into self mc new_config) = Some e ->
  exists k v,
    In (KStr k, v) new_config /\
    mem k ExtendDictFields = true /\
    e = raise_compiler_error (invalid_field_msg k).
Proof.
  unfold update_into. revert mc.
  induction new_config as [|kv items IH]; intros mc; [discriminate|].
  simpl. unfold seq.
  destruct (update_into_item kv mc) as [m1 [e'|]] eqn:E.
  - simpl. intros H. inversion H; subst e'.
    pose proof (update_into_item_raise kv mc e) as Hr. rewrite E in Hr.
    destruct (Hr eq_refl) as [s [Hs [Hm He]]].
    exists s, (snd kv). repeat split; trivial.
    left. rewrite <- Hs. now destruct kv.
  - intros H. destruct (IH m1 H) as [k [v [Hin [Hm He]]]].
    exists k, v. repeat split; trivial. now right.
Qed.

Lemma update_into_raises_only_for_extend_dict_witness :
  exists k v,
    In (KStr k, v) (str_dict [("alias", VStr "x"); ("quoting", VInt 0)]) /\
    mem k ExtendDictFields = true /\
    raise_compiler_error (invalid_field_msg "quoting")
    = raise_compiler_error (invalid_field_msg k).
Proof.
  apply (update_into_raises_only_for_extend_dict postgres []).
  reflexivity.
Defined.

(** X10: for an AppendList key [update_into] concatenates: the value
    it leaves is the list of the pending value followed by the list of
    the declared value, duplicates included (the pending list is not
    consulted as in the level merge). *)
Theorem update_into_appends (self : ConfigUpdater) (k : string) (v : value)
    (mc new_config : dict) :
  mem k AppendListFields = true ->
  dict_wf new_config = true ->
  dget (KStr k) new_config = Some v ->
  snd (update_into self mc new_config) = None ->
  dget (KStr k) (fst (update_into self mc new_config))
  = Some (VList (_listify (get_default_value (KStr k) mc (VList []))
                 ++ _listify v)).
Proof.
  intros Hk Hwf Hv Hok. unfold update_into in *.
  rewrite update_into_items_at by (trivial; now apply dict_wf_unique).
  rewrite Hv. unfold update_into_item. simpl fst. simpl snd. cbv iota.
  rewrite Hk. simpl. apply dget_dset_same.
Qed.

Lemma update_into_appends_witness :
  dget (KStr "tags")
    (fst (update_into postgres (str_dict [("tags", VList [VStr "a"])])
            (str_dict [("tags", VStr "a")])))
  = Some (VList [VStr "a"; VStr "a"]).
Proof.
  apply (update_into_appends postgres "tags" (VStr "a")
           (str_dict [("tags", VList [VStr "a"])])); reflexivity.
Defined.

(** X11: for a key that is neither an AppendList nor an ExtendDict
    field, a clobber field in particular, [update_into] replaces: the
    key holds the declared value when the input has it and keeps its
    pending value otherwise. *)
Theorem update_into_replaces (self : ConfigUpdater) (s : string)
    (mc new_config : dict) :
  mem s AppendListFields = false ->
  mem s ExtendDictFields = false ->
  dict_wf new_config = true ->
  snd (update_into self mc new_config) = None ->
  dget (KStr s) (fst (update_into self mc new_config))
  = match dget (KStr s) new_config with
    | Some v => Some v
    | None => dget (KStr s) mc
    end.
Proof.
  intros Ha He Hwf Hok. unfold update_into in *.
  rewrite update_into_items_at by (trivial; now apply dict_wf_unique).
  destruct (dget (KStr s) new_config) as [v|]; trivial.
  unfold update_into_item. simpl fst. simpl snd. cbv iota.
  rewrite Ha, He. simpl. apply dget_dset_same.
Qed.

Lemma update_into_replaces_witness :
  dget (KStr "materialized")
    (fst (update_into postgres (str_dict [("materialized", VStr "view")])
            (str_dict [("materialized", VStr "table")])))
  = Some (VStr "table").
Proof.
  exact (update_into_replaces postgres "materialized"
           (str_dict [("materialized", VStr "view")])
           (str_dict [("materialized", VStr "table")])
           eq_refl eq_refl eq_refl eq_refl).
Defined.

(** X12: for an ExtendDict key [update_into] shallow-merges a declared
    dictionary into the pending one (the empty dictionary when the key
    is not pending yet): the declared entries are stored over the
    pending ones. *)
Theorem update_into_extends (self : ConfigUpdater) (k : string)
    (mc new_config d1 d2 : dict) :
  mem k ExtendDictFields = true ->
  dict_wf new_config = true ->
  dget (KStr k) new_config = Some (VDict d2) ->
  get_default_value (KStr k) mc (VDict []) = VDict d1 ->
  snd (update_into self mc new_config) = None ->
  dget (KStr k) (fst (update_into self mc new_config))
  = Some (VDict (dict_update d1 d2))
  /\ forall j,
      dict_wf d2 = true ->
      dget (KStr j) (dict_update d1 d2)
      = match dget (KStr j) d2 with
        | Some x => Some x
        | None => dget (KStr j) d1
        end.
Proof.
  intros Hk Hwf Hv Hd1 Hok. unfold update_into in *. split.
  - rewrite update_into_items_at by (trivial; now apply dict_wf_unique).
    rewrite Hv. unfold update_into_item. simpl fst. simpl snd. cbv iota.
    rewrite (extend_not_append k Hk), Hk, Hd1. simpl.
    apply dget_dset_same.
  - intros j Hj. apply dget_dict_update. now apply dict_wf_unique.
Qed.

Lemma update_into_extends_witness :
  dget (KStr "vars")
    (fst (update_into postgres
            (str_dict [("vars", VDict (str_dict [("x", VInt 1)]))])
            (str_dict [("vars", VDict (str_dict [("y", VInt 2)]))])))
  = Some (VDict (dict_update (str_dict [("x", VInt 1)])
                   (str_dict [("y", VInt 2)]))).
Proof.
  apply (update_into_extends postgres "vars"
           (str_dict [("vars", VDict (str_dict [("x", VInt 1)]))])
           (str_dict [("vars", VDict (str_dict [("y", VInt 2)]))])
           (str_dict [("x", VInt 1)]) (str_dict [("y", VInt 2)]));
    reflexivity.
Defined.

(** X13: the entries of an input are applied one after the other:
    applying [a ++ b] is applying [a] and then [b] to what [a] left,
    and when [a] raises, [b] is not applied at all. *)
Theorem update_into_sequential (self : ConfigUpdater) (mc a b : dict) :
  (snd (update_into self mc a) = None ->
   update_into self mc (a ++ b)
   = update_into self (fst (update_into self mc a)) b)
  /\ (snd (update_into self mc a) <> None ->
      update_into self mc (a ++ b) = update_into self mc a).
Proof.
  unfold update_into. split.
  - apply update_into_items_app.
  - revert mc. induction a as [|kv a IH]; intros mc H; [now elim H|].
    simpl in *. unfold seq in *.
    destruct (update_into_item kv mc) as [m1 [e|]]; trivial.
    now apply IH.
Qed.

Lemma update_into_sequential_witness :
  update_into postgres []
    (str_dict [("alias", VStr "x")] ++ str_dict [("tags", VStr "t")])
  = update_into postgres
      (fst (update_into postgres [] (str_dict [("alias", VStr "x")])))
      (str_dict [("tags", VStr "t")])
  /\ update_into postgres []
       (str_dict [("vars", VInt 5)] ++ str_dict [("tags", VStr "t")])
     = update_into postgres [] (str_dict [("vars", VInt 5)]).
Proof.
  split.
  - apply (proj1 (update_into_sequential postgres []
                    (str_dict [("alias", VStr "x")])
                    (str_dict [("tags", VStr "t")]))).
    reflexivity.
  - apply (proj2 (update_into_sequential postgres []
                    (str_dict [("vars", VInt 5)])
                    (str_dict [("tags", VStr "t")]))).
    discriminate.
Defined.

(** ** merge and config *)

(** X14: a key that one of the merged configurations has and the
    others do not have keeps that configuration's value in the result
    of [merge], wherever the configuration stands in the order. *)
Theorem merge_single_source (self : ConfigUpdater) (s : string)
    (pre post : list dict) (c : dict) :
  Forall (fun c' => dget (KStr s) c' = None) pre ->
  Forall (fun c' => dget (KStr s) c' = None) post ->
  dict_wf c = true ->
  dget (KStr s) (merge self (pre ++ c :: post)) = dget (KStr s) c.
Proof.
  intros Hpre Hpost Hwf.
  apply merge_unrecognized; trivial. now apply dict_wf_unique.
Qed.

Lemma merge_single_source_witness :
  dget (KStr "tags")
    (merge postgres
       ([str_dict [("enabled", VBool true)]]
        ++ str_dict [("tags", VList [VStr "a"]); ("alias", VStr "x")]
        :: [str_dict [("alias", VStr "y")]]))
  = Some (VList [VStr "a"]).
Proof.
  apply (merge_single_source postgres "tags"
           [str_dict [("enabled", VBool true)]]
           [str_dict [("alias", VStr "y")]]
           (str_dict [("tags", VList [VStr "a"]); ("alias", VStr "x")])).
  - repeat constructor.
  - repeat constructor.
  - reflexivity.
Defined.

Lemma get_default_wf (self : SourceConfig) :
  dict_wf (get_default self) = true.
Proof.
  unfold get_default. now destruct (resource_type (model self)).
Qed.

(** X15: a default stays in force until something overrides it: a key
    of the defaults that neither the project configurations read nor
    the in-model configuration have holds its default value in
    [config]. *)
Theorem config_keeps_default (self : SourceConfig) (k : string) (v : value)
    (active_config cfg : dict) :
  dget (KStr k) (get_default self) = Some v ->
  load_config_from_active_project self = Ok active_config ->
  dget (KStr k) active_config = None ->
  dget (KStr k) (in_model_config self) = None ->
  (forall own_config,
      load_config_from_own_project self = Ok own_config ->
      dget (KStr k) own_config = None) ->
  config self = Ok cfg ->
  dget (KStr k) cfg = Some v.
Proof.
  intros Hv Ha Hna Hnp Hown. unfold config. rewrite Ha. simpl.
  pose proof (dict_wf_unique k _ (get_default_wf self)) as Hu.
  destruct (String.eqb _ _).
  - intros H. inversion H. rewrite <- Hv.
    apply (merge_unrecognized (updater self) k []
             [active_config; in_model_config self]); auto.
  - destruct (load_config_from_own_project self) as [o|e] eqn:Eo;
      [|discriminate].
    simpl. intros H. inversion H. rewrite <- Hv.
    apply (merge_unrecognized (updater self) k []
             [o; in_model_config self; active_config]); auto.
Qed.

Lemma config_keeps_default_witness :
  exists cfg,
    config custom_key_resolver = Ok cfg /\
    dget (KStr "enabled") cfg = Some (VBool true).
Proof.
  eexists. split; [reflexivity|].
  refine (config_keeps_default custom_key_resolver "enabled" (VBool true)
            scaffold _ _ _ _ _ _ _).
  - reflexivity.
  - reflexivity.
  - reflexivity.
  - reflexivity.
  - intros o H. inversion H. reflexivity.
  - reflexivity.
Defined.

(** X16: an in-model declaration of a clobber field overrides the
    defaults and the project configuration of the resource's own
    package; for a resource of another package it holds unless the
    active project sets the field. *)
Theorem config_inline_clobber (self : SourceConfig) (k : string) (v : value)
    (cfg : dict) :
  mem k (ClobberFields (updater self)) = true ->
  dict_wf (in_model_config self) = true ->
  dget (KStr k) (in_model_config self) = Some v ->
  (project_name (active_project self) <> project_name (own_project self) ->
   forall active_config,
     load_config_from_active_project self = Ok active_config ->
     dget (KStr k) active_config = None) ->
  config self = Ok cfg ->
  dget (KStr k) cfg = Some v.
Proof.
  intros Hk Hwf Hv Hdep. unfold config.
  pose proof (dict_wf_unique k _ Hwf) as Hu.
  destruct (load_config_from_active_project self) as [a|e] eqn:Ea;
    [|discriminate].
  simpl. destruct (String.eqb _ _) eqn:En.
  - intros H. inversion H.
    apply (merge_clobber_last (updater self) k v [get_default self; a] []
             (in_model_config self)); trivial.
  - destruct (load_config_from_own_project self) as [o|e] eqn:Eo;
      [|discriminate].
    simpl. intros H. inversion H.
    apply (merge_clobber_last (updater self) k v [get_default self; o] [a]
             (in_model_config self)); trivial.
    repeat constructor. apply Hdep; trivial. now apply String.eqb_neq.
Qed.

Lemma config_inline_clobber_witness :
  exists cfg,
    config (root_resolver nested_tree
              (str_dict [("materialized", VStr "ephemeral")])) = Ok cfg /\
    dget (KStr "materialized") cfg = Some (VStr "ephemeral").
Proof.
  eexists. split; [reflexivity|].
  refine (config_inline_clobber
            (root_resolver nested_tree
               (str_dict [("materialized", VStr "ephemeral")]))
            "materialized" (VStr "ephemeral") _ _ _ _ _ _).
  - reflexivity.
  - reflexivity.
  - reflexivity.
  - intros H. now elim H.
  - reflexivity.
Defined.

Lemma update_into_items_unique (s : string) (items : list (key * value))
    (mc : dict) :
  unique s mc -> unique s (fst (update_into_items items mc)).
Proof.
  apply (preserves_update_into_items (unique s)).
  intros k v m. apply unique_dset.
Qed.

(** X17: [config] is evaluated anew at every access, so it sees the
    in-model declarations made since: after a declaration that sets a
    clobber field has been applied without error to a resource of the
    active package, [config] holds the declared value. *)
Theorem config_observes_declaration (self self' : SourceConfig)
    (declared new_config cfg : dict) (k : string) (v : value) :
  project_name (active_project self) = project_name (own_project self) ->
  one_strategy (updater self) = true ->
  mem k (ClobberFields (updater self)) = true ->
  dict_wf (in_model_config self) = true ->
  _translate_adapter_aliases self declared = Ok new_config ->
  dict_wf new_config = true ->
  dget (KStr k) new_config = Some v ->
  update_in_model_config self declared = (self', None) ->
  config self' = Ok cfg ->
  dget (KStr k) cfg = Some v.
Proof.
  intros Hn H1 Hk Hwf Ht Hwfn Hv Hu.
  unfold update_in_model_config in Hu. rewrite Ht in Hu.
  destruct (update_into (updater self) (in_model_config self) new_config)
    as [d o] eqn:Eu.
  inversion Hu; subst self' o. clear Hu.
  destruct (clobber_not_accumulating (updater self) k H1
              (proj1 (mem_In _ _) Hk)) as [Ha He].
  assert (Hd : dget (KStr k) d = Some v).
  { replace d
      with (fst (update_into (updater self) (in_model_config self) new_config))
      by now rewrite Eu.
    unfold update_into in *.
    rewrite update_into_items_at
      by (try (now apply dict_wf_unique); now rewrite Eu).
    rewrite Hv. unfold update_into_item. simpl fst. simpl snd. cbv iota.
    rewrite Ha, He. simpl. apply dget_dset_same. }
  assert (Hud : unique k d).
  { replace d
      with (fst (update_into (updater self) (in_model_config self) new_config))
      by now rewrite Eu.
    apply update_into_items_unique. now apply dict_wf_unique. }
  unfold config. simpl.
  destruct (load_config_from_active_project _) as [a|e]; [|discriminate].
  simpl. apply String.eqb_eq in Hn. rewrite Hn.
  intros H. inversion H.
  apply (merge_clobber_last (updater self) k v
           [get_default (set_in_model_config self d); a] [] d); trivial.
Qed.

Lemma config_observes_declaration_witness :
  exists cfg,
    config (fst (update_in_model_config (root_resolver nested_tree [])
                   (str_dict [("schema", VStr "analytics")]))) = Ok cfg /\
    dget (KStr "schema") cfg = Some (VStr "analytics").
Proof.
  eexists. split; [reflexivity|].
  refine (config_observes_declaration (root_resolver nested_tree []) _
            (str_dict [("schema", VStr "analytics")])
            (str_dict [("schema", VStr "analytics")]) _
            "schema" (VStr "analytics") _ _ _ _ _ _ _ _ _); reflexivity.
Defined.

(** ** The walk over a path and over its prefixes *)

Lemma walk_levels_split (self : ConfigUpdater) (pre rest : list string) :
  forall config node node' c1,
    descend node pre = Some node' ->
    walk_levels self pre config node = Ok c1 ->
    walk_levels self (pre ++ rest) config node
    = walk_levels self rest c1 node'.
Proof.
  induction pre as [|p pre IH]; intros config node node' c1 Hd Hw.
  - simpl in *. inversion Hd; subst. now inversion Hw; subst.
  - simpl in Hd. destruct node as [| | | | | |d0]; try discriminate.
    simpl in *. destruct (dget (KStr p) d0) as [child|]; [|discriminate].
    destruct (update_config_keys_into self config child) as [c' [rel|e]];
      destruct child; try discriminate; now apply IH.
Qed.

(** X18: the walk composes along the path: when every segment of a
    prefix of the path has a node, the configuration of the resource
    is the walk over the remaining segments, started from the
    configuration of the prefix in the node the prefix leads to. *)
Theorem get_project_config_by_prefix (self : ConfigUpdater)
    (model : ModelParts) (project : Project) (pre rest : list string)
    (node : value) (c1 : dict) :
  fqn model = pre ++ rest ->
  select_configs model project <> VNone ->
  descend (select_configs model project) pre = Some node ->
  get_project_config self (with_fqn model pre) project = Ok c1 ->
  get_project_config self model project = walk_levels self rest c1 node.
Proof.
  intros Hf Hne Hd. unfold get_project_config.
  change (select_configs (with_fqn model pre) project)
    with (select_configs model project).
  rewrite Hf. simpl fqn.
  destruct (select_configs model project) eqn:Es; try congruence;
    destruct (update_config_keys_into self scaffold _) as [c [r|e]];
    try discriminate; intros Hw; now apply walk_levels_split.
Qed.

Lemma get_project_config_by_prefix_witness :
  get_project_config postgres m1 (project_of "p" nested_tree)
  = walk_levels postgres ["sub"; "m1"]
      (dset (KStr "materialized") (VStr "table")
         (dset (KStr "tags") (VList [VStr "a"; VStr "b"]) scaffold))
      (VDict (str_dict
         [("materialized", VStr "table");
          ("tags", VList [VStr "a"; VStr "b"]);
          ("sub", VDict (str_dict
             [("tags", VList [VStr "b"; VStr "c"]);
              ("m1", VDict (str_dict
                 [("materialized", VStr "incremental")]))]))])).
Proof.
  apply (get_project_config_by_prefix postgres m1
           (project_of "p" nested_tree) ["pkgA"] ["sub"; "m1"]).
  - reflexivity.
  - discriminate.
  - reflexivity.
  - reflexivity.
Defined.

Lemma relevant_of_other (self : ConfigUpdater) (new_configs : value)
    (rel : dict) (s : string) :
  has_key s new_configs = false ->
  relevant_of self new_configs = Ok rel ->
  dget (KStr s) rel = None.
Proof.
  intros Hh Hrel.
  destruct new_configs as [| | | | | |d];
    try (simpl in Hrel; try discriminate;
         destruct (existsb _ _); try discriminate;
         inversion Hrel; reflexivity).
  rewrite (relevant_of_dget self d rel s Hrel).
  unfold has_key in Hh.
  destruct (dget (KStr s) d); [discriminate|].
  now destruct (mem s (ConfigKeys self)).
Qed.

Lemma walk_levels_keeps (self : ConfigUpdater) (s : string)
    (levels : list string) :
  mem s AppendListFields = false -> mem s ExtendDictFields = false ->
  forall config node cfg,
    unset_below s node levels = true ->
    walk_levels self levels config node = Ok cfg ->
    dget (KStr s) cfg = dget (KStr s) config.
Proof.
  intros Ha He.
  induction levels as [|level rest IH]; intros config node cfg Hb Hw.
  - simpl in Hw. now inversion Hw.
  - simpl in Hb, Hw.
    destruct node as [| | | | | |d]; try discriminate.
    simpl in Hw.
    destruct (dget (KStr level) d) as [child|];
      [|now inversion Hw].
    destruct (update_config_keys_into self config child)
      as [c' [rel|e]] eqn:Eu.
    + rewrite (reapply_noop _ _ _ _ _ Eu) in Hw.
      assert (Hc : child = VNone \/
                   (has_key s child = false /\
                    unset_below s child rest = true)).
      { destruct child; auto; right;
          apply andb_true_iff in Hb as [H1 H2];
          now apply negb_true_iff in H1. }
      destruct Hc as [->|[Hh Hu]]; [now inversion Hw|].
      assert (Hstep : dget (KStr s) c' = dget (KStr s) config).
      { rewrite (update_level_other self s config child c' rel Ha He Eu).
        pose proof (update_config_keys_into_ok _ _ _ _ _ Eu) as [Hrel _].
        now rewrite (relevant_of_other self child rel s Hh Hrel). }
      rewrite <- Hstep.
      destruct child; try (eapply IH; eassumption).
      inversion Hw; subst. now symmetry.
    + destruct child; try discriminate. now inversion Hw.
Qed.

(** X19: a setting is inherited: for a key that is neither an
    AppendList nor an ExtendDict field, a clobber field in
    particular, the configuration of a resource has what the
    configuration of a prefix of its path has, as long as no node
    entered below the prefix has the key. *)
Theorem get_project_config_inherits (self : ConfigUpdater)
    (model : ModelParts) (project : Project) (pre rest : list string)
    (node : value) (c1 c2 : dict) (s : string) :
  mem s AppendListFields = false ->
  mem s ExtendDictFields = false ->
  fqn model = pre ++ rest ->
  select_configs model project <> VNone ->
  descend (select_configs model project) pre = Some node ->
  unset_below s node rest = true ->
  get_project_config self (with_fqn model pre) project = Ok c1 ->
  get_project_config self model project = Ok c2 ->
  dget (KStr s) c2 = dget (KStr s) c1.
Proof.
  intros Ha He Hf Hne Hd Hb H1 H2.
  pose proof (walk_levels_split self pre rest) as Hsplit.
  unfold get_project_config in H1, H2.
  change (select_configs (with_fqn model pre) project)
    with (select_configs model project) in H1.
  rewrite Hf in H2. simpl fqn in H1.
  destruct (select_configs model project) eqn:Es; try congruence;
    destruct (update_config_keys_into self scaffold _) as [c [r|e]];
    try discriminate;
    rewrite (Hsplit _ _ _ _ Hd H1) in H2;
    exact (walk_levels_keeps self s rest Ha He c1 node c2 Hb H2).
Qed.

Lemma get_project_config_inherits_witness :
  exists c1 c2,
    get_project_config postgres
      {| fqn := ["pkgA"]; resource_type := Model |}
      (project_of "p" nested_tree) = Ok c1 /\
    get_project_config postgres
      {| fqn := ["pkgA"; "sub"; "other"]; resource_type := Model |}
      (project_of "p" nested_tree) = Ok c2 /\
    dget (KStr "materialized") c2 = dget (KStr "materialized") c1 /\
    dget (KStr "materialized") c1 = Some (VStr "table").
Proof.
  eexists. eexists. split; [reflexivity|]. split; [reflexivity|].
  split; [|reflexivity].
  refine (get_project_config_inherits postgres
            {| fqn := ["pkgA"; "sub"; "other"]; resource_type := Model |}
            (project_of "p" nested_tree) ["pkgA"] ["sub"; "other"]
            _ _ _ "materialized" _ _ _ _ _ _ _ _).
  - reflexivity.
  - reflexivity.
  - reflexivity.
  - discriminate.
  - reflexivity.
  - reflexivity.
  - reflexivity.
  - reflexivity.
Defined.

Lemma walk_levels_grows (self : ConfigUpdater) (k : string)
    (levels : list string) :
  one_strategy self = true -> In k AppendListFields ->
  forall config node cfg l,
    dget (KStr k) config = Some (VList l) ->
    walk_levels self levels config node = Ok cfg ->
    exists ext, dget (KStr k) cfg = Some (VList (l ++ ext)).
Proof.
  intros H1 Hk.
  induction levels as [|level rest IH]; intros config node cfg l Hl Hw.
  - simpl in Hw. inversion Hw; subst. exists []. now rewrite app_nil_r.
  - simpl in Hw. destruct (py_get node level) as [[child|]|e];
      simpl in Hw; try discriminate.
    + destruct (update_config_keys_into self config child)
        as [c' [rel|e]] eqn:Eu.
      * rewrite (reapply_noop _ _ _ _ _ Eu) in Hw.
        pose proof (update_config_keys_into_append self k config child c' rel
                      l H1 Hk Eu Hl) as Hstep.
        destruct child;
          try (destruct (IH _ _ _ _ Hstep Hw) as [ext Hext];
               eexists; rewrite Hext, <- app_assoc; reflexivity).
        inversion Hw; subst. exists []. now rewrite app_nil_r.
      * destruct child; try discriminate.
        inversion Hw; subst. exists []. now rewrite app_nil_r.
    + inversion Hw; subst. exists []. now rewrite app_nil_r.
Qed.

(** X20: the items of the outer levels come first: under an AppendList
    key the configuration of a resource holds the list that the
    configuration of a prefix of its path holds, followed by what the
    deeper levels add. *)
Theorem get_project_config_appends_to_prefix (self : ConfigUpdater)
    (model : ModelParts) (project : Project) (pre rest : list string)
    (node : value) (c1 c2 : dict) (k : string) :
  one_strategy self = true ->
  In k AppendListFields ->
  fqn model = pre ++ rest ->
  select_configs model project <> VNone ->
  descend (select_configs model project) pre = Some node ->
  get_project_config self (with_fqn model pre) project = Ok c1 ->
  get_project_config self model project = Ok c2 ->
  exists l ext,
    dget (KStr k) c1 = Some (VList l) /\
    dget (KStr k) c2 = Some (VList (l ++ ext)).
Proof.
  intros Hone Hk Hf Hne Hd H1 H2.
  assert (Hs : shaped c1 = true).
  { revert H1. apply (get_project_config_inv (fun m => shaped m = true)).
    - reflexivity.
    - intros mc new_configs. now apply update_config_keys_into_shaped. }
  apply shaped_spec in Hs as [Hl _]. specialize (Hl k Hk).
  unfold holds_list in Hl.
  destruct (dget (KStr k) c1) as [[| | | |l| |]|] eqn:El; try discriminate.
  exists l.
  pose proof (walk_levels_split self pre rest) as Hsplit.
  unfold get_project_config in H1, H2.
  change (select_configs (with_fqn model pre) project)
    with (select_configs model project) in H1.
  rewrite Hf in H2. simpl fqn in H1.
  destruct (select_configs model project) eqn:Es; try congruence;
    destruct (update_config_keys_into self scaffold _) as [c [r|e]];
    try discriminate;
    rewrite (Hsplit _ _ _ _ Hd H1) in H2;
    destruct (walk_levels_grows self k rest Hone Hk c1 node c2 l El H2)
      as [ext Hext];
    exists ext; now split.
Qed.

Lemma get_project_config_appends_to_prefix_witness :
  exists l ext,
    dget (KStr "tags")
      (dset (KStr "materialized") (VStr "table")
         (dset (KStr "tags") (VList [VStr "a"; VStr "b"]) scaffold))
    = Some (VList l) /\
    dget (KStr "tags") shaped_result = Some (VList (l ++ ext)).
Proof.
  apply (get_project_config_appends_to_prefix postgres m1
           (project_of "p" nested_tree) ["pkgA"] ["sub"; "m1"]
           (VDict (str_dict
              [("materialized", VStr "table");
               ("tags", VList [VStr "a"; VStr "b"]);
               ("sub", VDict (str_dict
                  [("tags", VList [VStr "b"; VStr "c"]);
                   ("m1", VDict (str_dict
                      [("materialized", VStr "incremental")]))]))]))).
  - reflexivity.
  - simpl. tauto.
  - reflexivity.
  - discriminate.
  - reflexivity.
  - reflexivity.
  - reflexivity.
Defined.
